(** * The a_lang front end: AST, unparser and grammar actions

    A shallow embedding of [ast.hpp], [ast.cpp], [unparse.cpp] and the
    grammar [a.yy].  Output streams are modelled by the text a method
    appends to [out]; C++ [int]s are integers of [Z]; pointers that the
    code allows to be null are [option]s.

    [ast.hpp] and [unparse.cpp] each hold two versions of their content.
    The node classes and their [unparse] methods follow the first,
    complete one; the grammar calls the three-argument [VarDeclNode]
    constructor, which only the second one declares. *)

From Stdlib Require Import ZArith List String Ascii Bool Lia DecimalString.
Import ListNotations.

Set Warnings "-register-all".

Local Open Scope string_scope.
Local Open Scope Z_scope.

(** ** Positions *)

(** Modelled from the spec: the class [Position] lives in a header that is
    not part of the sources at hand.  Section 3 of the specification gives
    it as a span (startLine, startCol, endLine, endCol), and the
    two-pointer constructor as the merge of a first and a last position. *)
Record Position : Type := mkPosition
  { startLine : Z; startCol : Z; endLine : Z; endCol : Z }.

(** Modelled from the spec: [Position(const Position * start, const Position * end)]
    keeps the start of its first argument and the end of its second. *)
Definition Position_merge (first last : Position) : Position :=
  mkPosition (startLine first) (startCol first) (endLine last) (endCol last).

(** ** Characters the unparser writes *)

Definition tab : string := String (ascii_of_nat 9) EmptyString.
Definition nl : string := String (ascii_of_nat 10) EmptyString.

Fixpoint tabs (n : nat) : string :=
  match n with
  | O => ""
  | S k => tab ++ tabs k
  end.

(** [static void doIndent(std::ostream& out, int indent)]: the loop
    [for (k = 0; k < indent; k++)] writes nothing when [indent <= 0]. *)
Definition doIndent (indent : Z) : string := tabs (Z.to_nat indent).

(** [out << myNum] for an [int]. *)
Definition show_int (n : Z) : string := NilZero.string_of_int (Z.to_int n).

(** ** AST nodes ([ast.hpp]) *)

Record IDNode : Type := mkIDNode { id_pos : Position; name : string }.

Inductive TypeNode : Type :=
| IntTypeNode (p : Position)
| BoolTypeNode (p : Position)
| ClassTypeNode (p : Position) (myID : IDNode)
| VoidTypeNode (p : Position)
| ImmutableTypeNode (p : Position) (mySub : TypeNode)
| RefTypeNode (p : Position) (mySub : TypeNode).

(** [LocNode] has [IDNode] as its only concrete subclass, so a [LocNode *]
    is an [IDNode]. *)
Inductive ExpNode : Type :=
| LocExp (id : IDNode)
| CallExpNode (p : Position) (myCallee : IDNode) (myArgs : list ExpNode)
| IntLitNode (p : Position) (myNum : Z)
| StrLitNode (p : Position) (myStr : string)
| TrueNode (p : Position)
| FalseNode (p : Position)
| EhNode (p : Position)
| PlusNode (p : Position) (myExp1 myExp2 : ExpNode)
| MinusNode (p : Position) (myExp1 myExp2 : ExpNode)
| TimesNode (p : Position) (myExp1 myExp2 : ExpNode)
| DivideNode (p : Position) (myExp1 myExp2 : ExpNode)
| AndNode (p : Position) (myExp1 myExp2 : ExpNode)
| OrNode (p : Position) (myExp1 myExp2 : ExpNode)
| EqualsNode (p : Position) (myExp1 myExp2 : ExpNode)
| NotEqualsNode (p : Position) (myExp1 myExp2 : ExpNode)
| LessNode (p : Position) (myExp1 myExp2 : ExpNode)
| LessEqNode (p : Position) (myExp1 myExp2 : ExpNode)
| GreaterNode (p : Position) (myExp1 myExp2 : ExpNode)
| GreaterEqNode (p : Position) (myExp1 myExp2 : ExpNode)
| NegNode (p : Position) (myExp : ExpNode)
| NotNode (p : Position) (myExp : ExpNode).

(** [VarDeclNode]: [myInit] is the only child the class never
    dereferences; it may be null. *)
Record VarDeclNode : Type := mkVarDeclNode
  { vd_pos : Position; myID : IDNode; myType : TypeNode;
    myInit : option ExpNode }.

(** [FormalDeclNode] is a [VarDeclNode] built with a null initializer. *)
Record FormalDeclNode : Type := mkFormalDeclNode
  { fd_pos : Position; fd_ID : IDNode; fd_Type : TypeNode }.

Definition FormalDecl_as_VarDecl (f : FormalDeclNode) : VarDeclNode :=
  mkVarDeclNode (fd_pos f) (fd_ID f) (fd_Type f) None.

(** A [CallStmtNode] owns a [CallExpNode *]: its position, callee and
    arguments. *)
Record CallExp : Type := mkCallExp
  { ce_pos : Position; ce_callee : IDNode; ce_args : list ExpNode }.

Definition CallExp_as_Exp (c : CallExp) : ExpNode :=
  CallExpNode (ce_pos c) (ce_callee c) (ce_args c).

(** [DeclNode] is a subclass of [StmtNode]: a declaration is a statement. *)
Inductive StmtNode : Type :=
| AssignStmtNode (p : Position) (myDst : IDNode) (mySrc : ExpNode)
| CallStmtNode (p : Position) (myCallExp : CallExp)
| ReturnStmtNode (p : Position) (myExp : option ExpNode)
| MaybeStmtNode (p : Position) (myDst : IDNode) (mySrc1 mySrc2 : ExpNode)
| FromConsoleStmtNode (p : Position) (myDst : IDNode)
| ToConsoleStmtNode (p : Position) (mySrc : ExpNode)
| PostDecStmtNode (p : Position) (myLoc : IDNode)
| PostIncStmtNode (p : Position) (myLoc : IDNode)
| IfStmtNode (p : Position) (myCond : ExpNode) (myBody : list StmtNode)
| IfElseStmtNode (p : Position) (myCond : ExpNode)
    (myBodyTrue myBodyFalse : list StmtNode)
| WhileStmtNode (p : Position) (myCond : ExpNode) (myBody : list StmtNode)
| DeclStmt (d : DeclNode)
with DeclNode : Type :=
| VarDecl (v : VarDeclNode)
| FormalDecl (f : FormalDeclNode)
| ClassDefnNode (p : Position) (myID : IDNode) (myMembers : list DeclNode)
| FnDeclNode (p : Position) (myID : IDNode) (myFormals : list FormalDeclNode)
    (myRetType : TypeNode) (myBody : list StmtNode).

(** The global list holds [DeclNode *]s; the grammar can push null ones. *)
Record ProgramNode : Type := mkProgramNode
  { prog_pos : Position; myGlobals : list (option DeclNode) }.

(** [ASTNode::pos()] for declarations. *)
Definition DeclNode_pos (d : DeclNode) : Position :=
  match d with
  | VarDecl v => vd_pos v
  | FormalDecl f => fd_pos f
  | ClassDefnNode p _ _ => p
  | FnDeclNode p _ _ _ _ => p
  end.

Definition TypeNode_pos (t : TypeNode) : Position :=
  match t with
  | IntTypeNode p | BoolTypeNode p | ClassTypeNode p _ | VoidTypeNode p
  | ImmutableTypeNode p _ | RefTypeNode p _ => p
  end.

(** ** The unparser ([unparse.cpp]) *)

Module Unparse.

(** [IDNode::unparse] ignores its indentation. *)
Definition IDNode_unparse (id : IDNode) (indent : Z) : string := name id.

Fixpoint TypeNode_unparse (t : TypeNode) (indent : Z) : string :=
  match t with
  | IntTypeNode _ => "int"
  | BoolTypeNode _ => "bool"
  | ClassTypeNode _ id => doIndent indent ++ IDNode_unparse id 0
  | VoidTypeNode _ => "void"
  | ImmutableTypeNode _ sub =>
      doIndent indent ++ "immutable " ++ TypeNode_unparse sub 0
  | RefTypeNode _ sub => doIndent indent ++ "& " ++ TypeNode_unparse sub 0
  end.

(** The five literal classes override [unparseNested] to call
    [unparse(out, 0)]; every other class inherits
    [ExpNode::unparseNested], which adds the parentheses. *)
Definition overrides_unparseNested (e : ExpNode) : bool :=
  match e with
  | IntLitNode _ _ | StrLitNode _ _ | TrueNode _ | FalseNode _ | EhNode _ =>
      true
  | _ => false
  end.

Definition unparseNested_via (unparse : ExpNode -> Z -> string)
    (e : ExpNode) : string :=
  if overrides_unparseNested e then unparse e 0
  else "(" ++ unparse e 0 ++ ")".

(** The argument loop of [CallExpNode::unparse] with its [firstArg] flag. *)
Fixpoint unparse_args (unparse : ExpNode -> Z -> string)
    (firstArg : bool) (args : list ExpNode) : string :=
  match args with
  | [] => ""
  | arg :: rest =>
      (if firstArg then "" else ", ") ++ unparse arg 0
        ++ unparse_args unparse false rest
  end.

Fixpoint ExpNode_unparse (e : ExpNode) (indent : Z) {struct e} : string :=
  let nested := fun e' : ExpNode =>
    if overrides_unparseNested e' then ExpNode_unparse e' 0
    else "(" ++ ExpNode_unparse e' 0 ++ ")" in
  let binary := fun (op : string) (e1 e2 : ExpNode) =>
    doIndent indent ++ nested e1 ++ op ++ nested e2 in
  match e with
  | LocExp id => IDNode_unparse id indent
  | CallExpNode _ callee args =>
      doIndent indent ++ IDNode_unparse callee 0 ++ "("
        ++ (fix go (firstArg : bool) (l : list ExpNode) : string :=
              match l with
              | [] => ""
              | arg :: rest =>
                  (if firstArg then "" else ", ") ++ ExpNode_unparse arg 0
                    ++ go false rest
              end) true args
        ++ ")"
  | IntLitNode _ n => doIndent indent ++ show_int n
  | StrLitNode _ s => doIndent indent ++ s
  | TrueNode _ => doIndent indent ++ "true"
  | FalseNode _ => doIndent indent ++ "false"
  | EhNode _ => doIndent indent ++ "eh?"
  | PlusNode _ e1 e2 => binary " + " e1 e2
  | MinusNode _ e1 e2 => binary " - " e1 e2
  | TimesNode _ e1 e2 => binary " * " e1 e2
  | DivideNode _ e1 e2 => binary " / " e1 e2
  | AndNode _ e1 e2 => binary " and " e1 e2
  | OrNode _ e1 e2 => binary " or " e1 e2
  | EqualsNode _ e1 e2 => binary " == " e1 e2
  | NotEqualsNode _ e1 e2 => binary " != " e1 e2
  | LessNode _ e1 e2 => binary " < " e1 e2
  | LessEqNode _ e1 e2 => binary " <= " e1 e2
  | GreaterNode _ e1 e2 => binary " > " e1 e2
  | GreaterEqNode _ e1 e2 => binary " >= " e1 e2
  | NegNode _ e1 => doIndent indent ++ "-" ++ nested e1
  | NotNode _ e1 => doIndent indent ++ "!" ++ nested e1
  end.

(** [ExpNode::unparseNested] and its overrides. *)
Definition ExpNode_unparseNested (e : ExpNode) : string :=
  unparseNested_via ExpNode_unparse e.

Definition VarDeclNode_unparse (v : VarDeclNode) (indent : Z) : string :=
  doIndent indent ++ IDNode_unparse (myID v) 0 ++ ": "
    ++ TypeNode_unparse (myType v) 0 ++ ";" ++ nl.

Definition FormalDeclNode_unparse (f : FormalDeclNode) (indent : Z) : string :=
  doIndent indent ++ IDNode_unparse (fd_ID f) 0 ++ " : "
    ++ TypeNode_unparse (fd_Type f) 0.

Fixpoint unparse_formals (firstFormal : bool) (l : list FormalDeclNode)
    : string :=
  match l with
  | [] => ""
  | formal :: rest =>
      (if firstFormal then "" else ", ") ++ FormalDeclNode_unparse formal 0
        ++ unparse_formals false rest
  end.

(** The sentinel test [indent != -1] of the four embeddable statements. *)
Definition unless_inline (indent : Z) (s : string) : string :=
  if Z.eqb indent (-1) then "" else s.

Fixpoint StmtNode_unparse (s : StmtNode) (indent : Z) {struct s} : string :=
  match s with
  | AssignStmtNode _ dst src =>
      doIndent indent ++ IDNode_unparse dst 0 ++ " = "
        ++ ExpNode_unparse src 0 ++ ";" ++ nl
  | CallStmtNode _ call =>
      unless_inline indent (doIndent indent)
        ++ ExpNode_unparse (CallExp_as_Exp call) 0
        ++ unless_inline indent (";" ++ nl)
  | ReturnStmtNode _ e =>
      doIndent indent ++ "return"
        ++ match e with
           | Some e' => " " ++ ExpNode_unparse e' 0
           | None => ""
           end
        ++ ";" ++ nl
  | MaybeStmtNode _ dst src1 src2 =>
      unless_inline indent (doIndent indent)
        ++ "maybe " ++ IDNode_unparse dst 0
        ++ " means " ++ ExpNode_unparse src1 0
        ++ " otherwise " ++ ExpNode_unparse src2 0
        ++ unless_inline indent (";" ++ nl)
  | FromConsoleStmtNode _ dst =>
      doIndent indent ++ "fromconsole " ++ IDNode_unparse dst 0 ++ ";" ++ nl
  | ToConsoleStmtNode _ src =>
      doIndent indent ++ "toconsole " ++ ExpNode_unparse src 0 ++ ";" ++ nl
  | PostDecStmtNode _ loc =>
      unless_inline indent (doIndent indent)
        ++ IDNode_unparse loc 0 ++ "--"
        ++ unless_inline indent (";" ++ nl)
  | PostIncStmtNode _ loc =>
      unless_inline indent (doIndent indent)
        ++ IDNode_unparse loc 0 ++ "++"
        ++ unless_inline indent (";" ++ nl)
  | IfStmtNode _ cond body =>
      doIndent indent ++ "if (" ++ ExpNode_unparse cond 0 ++ "){" ++ nl
        ++ String.concat "" (map (fun st => StmtNode_unparse st (indent + 1)) body)
        ++ doIndent indent ++ "}" ++ nl
  | IfElseStmtNode _ cond bodyTrue bodyFalse =>
      doIndent indent ++ "if (" ++ ExpNode_unparse cond 0 ++ "){" ++ nl
        ++ String.concat ""
             (map (fun st => StmtNode_unparse st (indent + 1)) bodyTrue)
        ++ doIndent indent ++ "} else {" ++ nl
        ++ String.concat ""
             (map (fun st => StmtNode_unparse st (indent + 1)) bodyFalse)
        ++ doIndent indent ++ "}" ++ nl
  | WhileStmtNode _ cond body =>
      doIndent indent ++ "while (" ++ ExpNode_unparse cond 0 ++ "){" ++ nl
        ++ String.concat "" (map (fun st => StmtNode_unparse st (indent + 1)) body)
        ++ doIndent indent ++ "}" ++ nl
  | DeclStmt d => DeclNode_unparse d indent
  end
with DeclNode_unparse (d : DeclNode) (indent : Z) {struct d} : string :=
  match d with
  | VarDecl v => VarDeclNode_unparse v indent
  | FormalDecl f => FormalDeclNode_unparse f indent
  | ClassDefnNode _ id members =>
      doIndent indent ++ IDNode_unparse id 0 ++ " : custom {" ++ nl
        ++ String.concat ""
             (map (fun m => DeclNode_unparse m (indent + 1)) members)
        ++ "};" ++ nl
  | FnDeclNode _ id formals ret body =>
      doIndent indent ++ IDNode_unparse id 0 ++ " : " ++ "("
        ++ unparse_formals true formals
        ++ ") -> " ++ TypeNode_unparse ret 0 ++ " {" ++ nl
        ++ String.concat "" (map (fun st => StmtNode_unparse st (indent + 1)) body)
        ++ doIndent indent ++ "}" ++ nl
  end.

(** [ProgramNode::unparse]: the loop calls [global->unparse]; a null
    element is a null dereference, rendered here as [None]. *)
Fixpoint unparse_globals (l : list (option DeclNode)) (indent : Z)
    : option string :=
  match l with
  | [] => Some ""
  | None :: _ => None
  | Some global :: rest =>
      match unparse_globals rest indent with
      | Some s => Some (DeclNode_unparse global indent ++ s)
      | None => None
      end
  end.

Definition ProgramNode_unparse (p : ProgramNode) (indent : Z) : option string :=
  unparse_globals (myGlobals p) indent.

End Unparse.

(** ** Tokens ([a.yy], terminals) *)

(** The terminal symbols, as [symbol_kind] lists them in [frontend.hh].
    [END] ("end file") is what the scanner answers once its input is
    exhausted; it carries no translation. *)
Inductive symbol_kind : Type :=
| S_AND | S_ASSIGN | S_ARROW | S_BOOL | S_COLON | S_COMMA | S_CUSTOM | S_DASH
| S_ELSE | S_EH | S_EQUALS | S_FALSE | S_FROMCONSOLE | S_GREATER
| S_GREATEREQ | S_ID | S_IF | S_INT | S_INTLITERAL | S_IMMUTABLE | S_LCURLY
| S_LESS | S_LESSEQ | S_LPAREN | S_MAYBE | S_MEANS | S_NOT | S_NOTEQUALS
| S_OR | S_OTHERWISE | S_CROSS | S_POSTDEC | S_POSTINC | S_RETURN | S_RCURLY
| S_REF | S_RPAREN | S_SEMICOL | S_SLASH | S_STAR | S_STRINGLITERAL
| S_TOCONSOLE | S_TRUE | S_VOID | S_WHILE.

(** The translation of a terminal: a [Token *] with its position, an
    [IDToken *] with a name, an [IntLitToken *] with a number, or a
    [StrToken *] with a string. *)
Inductive Token : Type :=
| AND (p : Position) | ASSIGN (p : Position) | ARROW (p : Position)
| BOOL (p : Position) | COLON (p : Position) | COMMA (p : Position)
| CUSTOM (p : Position) | DASH (p : Position) | ELSE (p : Position)
| EH (p : Position) | EQUALS (p : Position) | FALSE (p : Position)
| FROMCONSOLE (p : Position) | GREATER (p : Position)
| GREATEREQ (p : Position)
| ID (p : Position) (value : string)
| IF (p : Position) | INT (p : Position)
| INTLITERAL (p : Position) (num : Z)
| IMMUTABLE (p : Position) | LCURLY (p : Position) | LESS (p : Position)
| LESSEQ (p : Position) | LPAREN (p : Position) | MAYBE (p : Position)
| MEANS (p : Position) | NOT (p : Position) | NOTEQUALS (p : Position)
| OR (p : Position) | OTHERWISE (p : Position) | CROSS (p : Position)
| POSTDEC (p : Position) | POSTINC (p : Position) | RETURN (p : Position)
| RCURLY (p : Position) | REF (p : Position) | RPAREN (p : Position)
| SEMICOL (p : Position) | SLASH (p : Position) | STAR (p : Position)
| STRINGLITERAL (p : Position) (str : string)
| TOCONSOLE (p : Position) | TRUE (p : Position) | VOID (p : Position)
| WHILE (p : Position).

Definition kind (t : Token) : symbol_kind :=
  match t with
  | AND _ => S_AND | ASSIGN _ => S_ASSIGN | ARROW _ => S_ARROW
  | BOOL _ => S_BOOL | COLON _ => S_COLON | COMMA _ => S_COMMA
  | CUSTOM _ => S_CUSTOM | DASH _ => S_DASH | ELSE _ => S_ELSE
  | EH _ => S_EH | EQUALS _ => S_EQUALS | FALSE _ => S_FALSE
  | FROMCONSOLE _ => S_FROMCONSOLE | GREATER _ => S_GREATER
  | GREATEREQ _ => S_GREATEREQ | ID _ _ => S_ID | IF _ => S_IF
  | INT _ => S_INT | INTLITERAL _ _ => S_INTLITERAL
  | IMMUTABLE _ => S_IMMUTABLE | LCURLY _ => S_LCURLY | LESS _ => S_LESS
  | LESSEQ _ => S_LESSEQ | LPAREN _ => S_LPAREN | MAYBE _ => S_MAYBE
  | MEANS _ => S_MEANS | NOT _ => S_NOT | NOTEQUALS _ => S_NOTEQUALS
  | OR _ => S_OR | OTHERWISE _ => S_OTHERWISE | CROSS _ => S_CROSS
  | POSTDEC _ => S_POSTDEC | POSTINC _ => S_POSTINC | RETURN _ => S_RETURN
  | RCURLY _ => S_RCURLY | REF _ => S_REF | RPAREN _ => S_RPAREN
  | SEMICOL _ => S_SEMICOL | SLASH _ => S_SLASH | STAR _ => S_STAR
  | STRINGLITERAL _ _ => S_STRINGLITERAL | TOCONSOLE _ => S_TOCONSOLE
  | TRUE _ => S_TRUE | VOID _ => S_VOID | WHILE _ => S_WHILE
  end.

(** [Token::pos()]. *)
Definition Token_pos (t : Token) : Position :=
  match t with
  | AND p | ASSIGN p | ARROW p | BOOL p | COLON p | COMMA p | CUSTOM p
  | DASH p | ELSE p | EH p | EQUALS p | FALSE p | FROMCONSOLE p | GREATER p
  | GREATEREQ p | ID p _ | IF p | INT p | INTLITERAL p _ | IMMUTABLE p
  | LCURLY p | LESS p | LESSEQ p | LPAREN p | MAYBE p | MEANS p | NOT p
  | NOTEQUALS p | OR p | OTHERWISE p | CROSS p | POSTDEC p | POSTINC p
  | RETURN p | RCURLY p | REF p | RPAREN p | SEMICOL p | SLASH p | STAR p
  | STRINGLITERAL p _ | TOCONSOLE p | TRUE p | VOID p | WHILE p => p
  end.

(** [IDToken::value()]; the scanner gives every [ID] terminal a name. *)
Definition Token_value (t : Token) : string :=
  match t with
  | ID _ v => v
  | _ => ""
  end.

Scheme Equality for symbol_kind.

Arguments symbol_kind_beq : simpl never.

(** ** Precedence and associativity ([a.yy], lines 127 to 133) *)

Inductive Assoc : Type := RightAssoc | LeftAssoc | NonAssoc.

(** Later declarations bind tighter: the level is the line's rank. *)
Definition precedence (k : symbol_kind) : option (nat * Assoc) :=
  match k with
  | S_ASSIGN => Some (1%nat, RightAssoc)
  | S_OR => Some (2%nat, LeftAssoc)
  | S_AND => Some (3%nat, LeftAssoc)
  | S_LESS | S_GREATER | S_LESSEQ | S_GREATEREQ | S_EQUALS | S_NOTEQUALS =>
      Some (4%nat, NonAssoc)
  | S_DASH | S_CROSS => Some (5%nat, LeftAssoc)
  | S_STAR | S_SLASH => Some (6%nat, LeftAssoc)
  | S_NOT => Some (7%nat, LeftAssoc)
  | _ => None
  end.

Definition level (k : symbol_kind) : nat :=
  match precedence k with
  | Some (n, _) => n
  | None => O
  end.

Inductive Resolution : Type := DoShift | DoReduce | DoError.

(** Modelled from the spec: the tables built from the precedence lines
    are generated into [parser.cc], which is not part of the sources at
    hand.  By section 4.2 a later line binds tighter, operators of one
    left-associative line group to the left, and chaining two operators
    of the non-associative line is a syntax error.  So, between reducing
    a rule and shifting the lookahead, the higher level wins; on equal
    levels a left-associative token reduces, a right-associative one
    shifts and a non-associative one is an error. *)
Definition resolve (rule_level : nat) (lookahead : symbol_kind) : Resolution :=
  match precedence lookahead with
  | None => DoReduce
  | Some (n, a) =>
      if (n <? rule_level)%nat then DoReduce
      else if (rule_level <? n)%nat then DoShift
      else match a with
           | LeftAssoc => DoReduce
           | RightAssoc => DoShift
           | NonAssoc => DoError
           end
  end.

(** The twelve terminals of the productions [exp : exp OP exp]. *)
Definition binary_operator (k : symbol_kind) : bool :=
  match k with
  | S_DASH | S_CROSS | S_STAR | S_SLASH | S_AND | S_OR | S_EQUALS
  | S_NOTEQUALS | S_GREATER | S_GREATEREQ | S_LESS | S_LESSEQ => true
  | _ => false
  end.

(** The six terminals of the [%nonassoc] line. *)
Definition relational (k : symbol_kind) : bool :=
  match k with
  | S_LESS | S_GREATER | S_LESSEQ | S_GREATEREQ | S_EQUALS | S_NOTEQUALS =>
      true
  | _ => false
  end.

(** The productions of [exp], named by what they match. *)
Inductive ExpRule : Type :=
| exp_binary (op : symbol_kind)   (* exp : exp OP exp *)
| exp_NOT                         (* exp : NOT exp *)
| exp_DASH_term                   (* exp : DASH term *)
| exp_term.                       (* exp : term *)

(** The rule a pending operator on the stack completes. *)
Definition rule_of (pending : symbol_kind) : ExpRule :=
  match pending with
  | S_NOT => exp_NOT
  | op => exp_binary op
  end.

(** ** Constructors with preconditions ([ast.hpp], [ast.cpp]) *)

(** What stops a run short of [parse] returning. *)
Inductive Fault : Type :=
| NullDereference    (* a method called through a null pointer *)
| AssertionFailure.  (* an [assert] of a constructor fails *)

(** The three-argument [VarDeclNode] constructor that [a.yy] calls: it
    asserts [myType != nullptr] and stores no initializer. *)
Definition VarDeclNode_ctor (p : Position) (inID : IDNode)
    (inType : option TypeNode) : Fault + VarDeclNode :=
  match inType with
  | Some t => inr (mkVarDeclNode p inID t None)
  | None => inl AssertionFailure
  end.

(** [ProgramNode::ProgramNode]: position (0,0,0,0), replaced for a
    non-empty list by the span from [front()->pos()] to [back()->pos()]. *)
Definition ProgramNode_ctor (globalsIn : list (option DeclNode))
    : Fault + ProgramNode :=
  match globalsIn with
  | [] => inr (mkProgramNode (mkPosition 0 0 0 0) globalsIn)
  | front :: _ =>
      match front, last globalsIn front with
      | Some f, Some b =>
          inr (mkProgramNode
                 (Position_merge (DeclNode_pos f) (DeclNode_pos b)) globalsIn)
      | _, _ => inl NullDereference
      end
  end.

(** ** The parser *)

(** Modelled from the spec: the driver [Parser::parse] and its tables are
    generated into [parser.cc], which is not part of the sources at hand.
    Section 4.2 of the specification makes the driver a table-driven
    LALR(1) parser, or an equivalent recursive-descent parser, with one
    token of lookahead and no recovery; it is written here as the
    recursive descent.  [a.yy] selects the skeleton [lalr1.cc] and
    [frontend.hh] declares its table of default reductions ([yydefact_],
    performed when the action table does not specify something else to
    do): in a state that shifts some tokens and can complete a
    production, the production is reduced on every other lookahead and
    the unexpected token is found only afterwards.  Two productions whose
    action shows from outside are reduced in such a state,
    [program : globals] and [varDecl : name COLON type]; both are reduced
    here where the tables reduce them.  The productions, their actions
    and the precedence lines are those of [a.yy]. *)
Module Parser.

(** The result of running part of the parser on the remaining tokens.
    [SyntaxErr rest] stops at the unexpected lookahead, the head of
    [rest] ([[]] stands for [END]). *)
Inductive Res (A : Type) : Type :=
| Ok (a : A) (rest : list Token)
| SyntaxErr (rest : list Token)
| Crash (f : Fault)
| OutOfFuel.

Arguments Ok {A} a rest.
Arguments SyntaxErr {A} rest.
Arguments Crash {A} f.
Arguments OutOfFuel {A}.

Definition M (A : Type) : Type := list Token -> Res A.

Definition ret {A : Type} (a : A) : M A := fun toks => Ok a toks.

Definition bind {A B : Type} (m : M A) (k : A -> M B) : M B :=
  fun toks =>
    match m toks with
    | Ok a rest => k a rest
    | SyntaxErr rest => SyntaxErr rest
    | Crash f => Crash f
    | OutOfFuel => OutOfFuel
    end.

Notation "x <- m ;; k" := (bind m (fun x => k))
  (at level 61, m at next level, right associativity).
Notation "m ;;; k" := (bind m (fun _ => k))
  (at level 61, right associativity).

Definition syntax_error {A : Type} : M A := fun toks => SyntaxErr toks.

Definition out_of_fuel {A : Type} : M A := fun _ => OutOfFuel.

Definition lift {A : Type} (r : Fault + A) : M A :=
  fun toks =>
    match r with
    | inr a => Ok a toks
    | inl f => Crash f
    end.

(** The kind of the lookahead token, [None] at [END]. *)
Definition peek : M (option symbol_kind) :=
  fun toks => Ok (option_map kind (hd_error toks)) toks.

Definition is_kind (k : symbol_kind) (la : option symbol_kind) : bool :=
  match la with
  | Some k' => symbol_kind_beq k k'
  | None => false
  end.

(** Shift a token of kind [k], or stop with a syntax error. *)
Definition expect (k : symbol_kind) : M Token :=
  fun toks =>
    match toks with
    | t :: rest => if symbol_kind_beq k (kind t) then Ok t rest
                   else SyntaxErr toks
    | [] => SyntaxErr []
    end.

(** *** Names, locations and types *)

(** [name : ID]. *)
Definition yy_name : M IDNode :=
  t <- expect S_ID ;; ret (mkIDNode (Token_pos t) (Token_value t)).

(** [loc : name { $$ = $1; } | loc ARROW name { }]: after the first name,
    every [ARROW name] leaves a null translation. *)
Fixpoint yy_loc_rest (cur : option IDNode) (toks : list Token)
    : Res (option IDNode) :=
  match toks with
  | a :: rest =>
      if symbol_kind_beq S_ARROW (kind a) then
        match rest with
        | n :: rest' =>
            if symbol_kind_beq S_ID (kind n) then yy_loc_rest None rest'
            else SyntaxErr rest
        | [] => SyntaxErr []
        end
      else Ok cur toks
  | [] => Ok cur []
  end.

Definition yy_loc : M (option IDNode) :=
  id <- yy_name ;; yy_loc_rest (Some id).

(** [primType : INT | BOOL | VOID]; the [VOID] action is empty. *)
Definition yy_primType : M (option TypeNode) :=
  fun toks =>
    match toks with
    | t :: rest =>
        match kind t with
        | S_INT => Ok (Some (IntTypeNode (Token_pos t))) rest
        | S_BOOL => Ok (Some (BoolTypeNode (Token_pos t))) rest
        | S_VOID => Ok None rest
        | _ => SyntaxErr toks
        end
    | [] => SyntaxErr []
    end.

(** [datatype : REF primType { } | primType { $$ = $1; } | REF name { }
    | name { }]. *)
Definition yy_datatype : M (option TypeNode) :=
  la <- peek ;;
  if is_kind S_REF la then
    expect S_REF ;;;
    la' <- peek ;;
    if is_kind S_ID la' then yy_name ;;; ret None
    else yy_primType ;;; ret None
  else if is_kind S_ID la then yy_name ;;; ret None
  else yy_primType.

(** [type : IMMUTABLE datatype { } | datatype { $$ = $1; }]. *)
Definition yy_type : M (option TypeNode) :=
  la <- peek ;;
  if is_kind S_IMMUTABLE la then
    expect S_IMMUTABLE ;;; yy_datatype ;;; ret None
  else yy_datatype.

(** *** Expressions *)

(** The productions of [exp] are ambiguous; the precedence lines settle
    every choice between completing the rule of the operator on top of
    [stack] and shifting the lookahead operator.  [stack] holds the
    operators whose right operand is still being read, innermost first;
    [done] lists the [exp] rules reduced so far, in order.  No [exp],
    [term], [callExp] or [actualList] production has a translation: their
    actions are empty. *)
Fixpoint yy_exp (fuel : nat) (stack : list symbol_kind) (done : list ExpRule)
    {struct fuel} : M (list ExpRule) :=
  match fuel with
  | O => out_of_fuel
  | S fuel' =>
      la <- peek ;;
      if is_kind S_NOT la then
        expect S_NOT ;;; yy_exp fuel' (S_NOT :: stack) done
      else if is_kind S_DASH la then
        expect S_DASH ;;;
        done1 <- yy_term fuel' done ;;
        yy_operator fuel' stack (done1 ++ [exp_DASH_term])%list
      else
        done1 <- yy_term fuel' done ;;
        yy_operator fuel' stack (done1 ++ [exp_term])%list
  end

(** An [exp] has just been completed. *)
with yy_operator (fuel : nat) (stack : list symbol_kind)
    (done : list ExpRule) {struct fuel} : M (list ExpRule) :=
  match fuel with
  | O => out_of_fuel
  | S fuel' =>
      la <- peek ;;
      match la with
      | Some op =>
          if binary_operator op then
            match stack with
            | [] => expect op ;;; yy_exp fuel' [op] done
            | top :: below =>
                match resolve (level top) op with
                | DoReduce =>
                    yy_operator fuel' below (done ++ [rule_of top])%list
                | DoShift => expect op ;;; yy_exp fuel' (op :: stack) done
                | DoError => syntax_error
                end
            end
          else ret (done ++ map rule_of stack)%list
      | None => ret (done ++ map rule_of stack)%list
      end
  end

(** [term : loc | INTLITERAL | STRINGLITERAL | TRUE | FALSE | EH
    | LPAREN exp RPAREN | callExp], with
    [callExp : loc LPAREN RPAREN | loc LPAREN actualList RPAREN]. *)
with yy_term (fuel : nat) (done : list ExpRule) {struct fuel}
    : M (list ExpRule) :=
  match fuel with
  | O => out_of_fuel
  | S fuel' =>
      la <- peek ;;
      match la with
      | Some S_INTLITERAL => expect S_INTLITERAL ;;; ret done
      | Some S_STRINGLITERAL => expect S_STRINGLITERAL ;;; ret done
      | Some S_TRUE => expect S_TRUE ;;; ret done
      | Some S_FALSE => expect S_FALSE ;;; ret done
      | Some S_EH => expect S_EH ;;; ret done
      | Some S_LPAREN =>
          expect S_LPAREN ;;;
          done1 <- yy_exp fuel' [] done ;;
          expect S_RPAREN ;;; ret done1
      | Some S_ID =>
          yy_loc ;;;
          la' <- peek ;;
          if is_kind S_LPAREN la' then
            expect S_LPAREN ;;;
            la'' <- peek ;;
            if is_kind S_RPAREN la'' then expect S_RPAREN ;;; ret done
            else yy_actualList fuel' done
          else ret done
      | _ => syntax_error
      end
  end

(** [actualList : exp | actualList COMMA exp], up to the closing
    [RPAREN] of the call. *)
with yy_actualList (fuel : nat) (done : list ExpRule) {struct fuel}
    : M (list ExpRule) :=
  match fuel with
  | O => out_of_fuel
  | S fuel' =>
      done1 <- yy_exp fuel' [] done ;;
      la <- peek ;;
      if is_kind S_COMMA la then
        expect S_COMMA ;;; yy_actualList fuel' done1
      else expect S_RPAREN ;;; ret done1
  end.

(** Fuel that covers every run on [toks]. *)
Definition exp_fuel (toks : list Token) : nat :=
  (2 * List.length toks + 3)%nat.

Definition parse_exp : M (list ExpRule) :=
  fun toks => yy_exp (exp_fuel toks) [] [] toks.

(** The rest of a [callExp] once [loc LPAREN] is read. *)
Definition parse_callArgs : M unit :=
  la <- peek ;;
  if is_kind S_RPAREN la then expect S_RPAREN ;;; ret tt
  else (fun toks => yy_actualList (exp_fuel toks) [] toks) ;;; ret tt.

(** *** Variable declarations *)

(** [varDecl : name COLON type] builds the node over the span from the
    name to the colon; [varDecl : name COLON type ASSIGN exp] has an
    empty action and leaves a null translation.  [id] and [colon] are the
    translations of the two symbols already read.  After the type the
    parser shifts [ASSIGN] and, by default, reduces the first production
    on every other lookahead.  The semicolon that follows every [varDecl]
    is left to the caller. *)
Definition yy_varDecl_rest (id : IDNode) (colon : Token)
    : M (option VarDeclNode) :=
  ty <- yy_type ;;
  la <- peek ;;
  if is_kind S_ASSIGN la then
    expect S_ASSIGN ;;; parse_exp ;;; ret None
  else
    v <- lift (VarDeclNode_ctor
                 (Position_merge (id_pos id) (Token_pos colon)) id ty) ;;
    ret (Some v).

(** *** Statements *)

(** [stmt], one production per branch; every action is empty, but a
    [varDecl] inside still runs its own. *)
Definition yy_stmt : M unit :=
  la <- peek ;;
  match la with
  | Some S_ID =>
      id <- yy_name ;;
      la' <- peek ;;
      if is_kind S_COLON la' then
        colon <- expect S_COLON ;; yy_varDecl_rest id colon ;;; ret tt
      else
        yy_loc_rest (Some id) ;;;
        la'' <- peek ;;
        match la'' with
        | Some S_ASSIGN => expect S_ASSIGN ;;; parse_exp ;;; ret tt
        | Some S_POSTDEC => expect S_POSTDEC ;;; ret tt
        | Some S_POSTINC => expect S_POSTINC ;;; ret tt
        | Some S_LPAREN => expect S_LPAREN ;;; parse_callArgs
        | _ => syntax_error
        end
  | Some S_TOCONSOLE => expect S_TOCONSOLE ;;; parse_exp ;;; ret tt
  | Some S_FROMCONSOLE => expect S_FROMCONSOLE ;;; yy_loc ;;; ret tt
  | Some S_MAYBE =>
      expect S_MAYBE ;;; parse_exp ;;;
      expect S_MEANS ;;; parse_exp ;;;
      expect S_OTHERWISE ;;; parse_exp ;;; ret tt
  | Some S_RETURN =>
      expect S_RETURN ;;;
      la' <- peek ;;
      if is_kind S_SEMICOL la' then ret tt else parse_exp ;;; ret tt
  | _ => syntax_error
  end.

(** [stmtList : epsilon | stmtList stmt SEMICOL | stmtList blockStmt],
    up to the closing [RCURLY], which is left to the caller. *)
Fixpoint yy_stmtList (fuel : nat) {struct fuel} : M unit :=
  match fuel with
  | O => out_of_fuel
  | S fuel' =>
      la <- peek ;;
      match la with
      | Some S_RCURLY => ret tt
      | Some S_WHILE =>
          expect S_WHILE ;;; expect S_LPAREN ;;; parse_exp ;;;
          expect S_RPAREN ;;; expect S_LCURLY ;;; yy_stmtList fuel' ;;;
          expect S_RCURLY ;;; yy_stmtList fuel'
      | Some S_IF =>
          expect S_IF ;;; expect S_LPAREN ;;; parse_exp ;;;
          expect S_RPAREN ;;; expect S_LCURLY ;;; yy_stmtList fuel' ;;;
          expect S_RCURLY ;;;
          la' <- peek ;;
          if is_kind S_ELSE la' then
            expect S_ELSE ;;; expect S_LCURLY ;;; yy_stmtList fuel' ;;;
            expect S_RCURLY ;;; yy_stmtList fuel'
          else yy_stmtList fuel'
      | _ => yy_stmt ;;; expect S_SEMICOL ;;; yy_stmtList fuel'
      end
  end.

Definition parse_stmtList : M unit :=
  fun toks => yy_stmtList (S (List.length toks)) toks.

(** *** Functions and classes *)

(** [formalList : formalDecl | formalList COMMA formalDecl] with
    [formalDecl : name COLON type]; the actions are empty. *)
Fixpoint yy_formalList (fuel : nat) {struct fuel} : M unit :=
  match fuel with
  | O => out_of_fuel
  | S fuel' =>
      yy_name ;;; expect S_COLON ;;; yy_type ;;;
      la <- peek ;;
      if is_kind S_COMMA la then expect S_COMMA ;;; yy_formalList fuel'
      else ret tt
  end.

(** [maybeFormals : epsilon | formalList]. *)
Definition yy_maybeFormals : M unit :=
  la <- peek ;;
  if is_kind S_RPAREN la then ret tt
  else fun toks => yy_formalList (S (List.length toks)) toks.

(** [fnDecl : name COLON LPAREN maybeFormals RPAREN ARROW type LCURLY
    stmtList RCURLY], after [name COLON]; the action is empty. *)
Definition yy_fnDecl_rest : M unit :=
  expect S_LPAREN ;;; yy_maybeFormals ;;; expect S_RPAREN ;;;
  expect S_ARROW ;;; yy_type ;;; expect S_LCURLY ;;; parse_stmtList ;;;
  expect S_RCURLY ;;; ret tt.

(** [classBody : classBody varDecl SEMICOL | classBody fnDecl | epsilon],
    up to the closing [RCURLY], which is left to the caller. *)
Fixpoint yy_classBody (fuel : nat) {struct fuel} : M unit :=
  match fuel with
  | O => out_of_fuel
  | S fuel' =>
      la <- peek ;;
      if is_kind S_ID la then
        id <- yy_name ;;
        colon <- expect S_COLON ;;
        la' <- peek ;;
        if is_kind S_LPAREN la' then yy_fnDecl_rest ;;; yy_classBody fuel'
        else
          yy_varDecl_rest id colon ;;; expect S_SEMICOL ;;;
          yy_classBody fuel'
      else ret tt
  end.

(** [classTypeDecl : name COLON CUSTOM LCURLY classBody RCURLY SEMICOL],
    after [name COLON]; the action is empty. *)
Definition yy_classTypeDecl_rest : M unit :=
  expect S_CUSTOM ;;; expect S_LCURLY ;;;
  (fun toks => yy_classBody (S (List.length toks)) toks) ;;;
  expect S_RCURLY ;;; expect S_SEMICOL ;;; ret tt.

(** *** Global declarations and the program *)

(** [decl : varDecl SEMICOL { $$ = $1; } | classTypeDecl { } | fnDecl { }]:
    only the first production passes a translation on. *)
Definition yy_decl : M (option DeclNode) :=
  id <- yy_name ;;
  colon <- expect S_COLON ;;
  la <- peek ;;
  if is_kind S_CUSTOM la then yy_classTypeDecl_rest ;;; ret None
  else if is_kind S_LPAREN la then yy_fnDecl_rest ;;; ret None
  else
    v <- yy_varDecl_rest id colon ;;
    expect S_SEMICOL ;;; ret (option_map VarDecl v).

(** [globals : globals decl | epsilon]: each declaration is pushed to the
    back of the list.  Every declaration starts with [ID]; the list ends
    in front of the first token that is not [ID], be it [END] or not. *)
Fixpoint yy_globals (fuel : nat) (globals : list (option DeclNode))
    {struct fuel} : M (list (option DeclNode)) :=
  match fuel with
  | O => out_of_fuel
  | S fuel' =>
      la <- peek ;;
      if is_kind S_ID la then
        declNode <- yy_decl ;;
        yy_globals fuel' (globals ++ [declNode])%list
      else ret globals
  end.

(** [program : globals { $$ = new ProgramNode($1); *root = $$; }], reduced
    by default where the list of declarations ends: the node built here
    is stored in the root by the action, before the parser looks for
    [END]. *)
Definition yy_program : M ProgramNode :=
  globals <- (fun toks => yy_globals (S (List.length toks)) [] toks) ;;
  lift (ProgramNode_ctor globals).

(** *** [Parser::parse] and [Parser::error] *)

(** How a run ends: [parse] returns a status, or the process stops at a
    fault inside an action. *)
Inductive Outcome : Type :=
| Returned (status : Z)
| Died (f : Fault)
| Unfinished.

(** What a run leaves behind: the outcome, the root out-parameter and the
    text written to [std::cout] and [std::cerr]. *)
Record Run : Type := mkRun
  { outcome : Outcome; root : option ProgramNode;
    cout : string; cerr : string }.

Section Driver.

(** The text of the verbose message is assembled by generated code; it is
    some function of the tokens read so far and of the unexpected
    lookahead ([None] for [END]). *)
Variable yysyntax_error_ : list Token -> option Token -> string.

(** The tokens read before the parser stopped at [rest]. *)
Definition consumed (toks rest : list Token) : list Token :=
  firstn (List.length toks - List.length rest) toks.

(** [Parser::error]: the message on [std::cout], then "syntax error" on
    [std::cerr], each followed by [std::endl]. *)
Definition error (msg : string) (r : Run) : Run :=
  mkRun (outcome r) (root r) (cout r ++ msg ++ nl)
    (cerr r ++ "syntax error" ++ nl).

(** Modelled from the spec: [Parser::parse], of which only the
    declaration is in [frontend.hh].  By section 4.2 it yields a status
    (0 for success); on the first unexpected token it reports through
    [Parser::error] and stops, without recovery.  The root is written by
    the action of [program], so it is written as soon as that production
    is reduced: once [program] is complete the parser accepts at [END]
    and reports any other token as unexpected, with the root already
    assigned.  An error inside a declaration comes before the reduction
    and leaves the root alone.  [parse] runs on the tokens the scanner
    delivers, with [root0] the value the caller's root pointer holds
    beforehand. *)
Definition parse (scanner : list Token) (root0 : option ProgramNode) : Run :=
  match yy_program scanner with
  | Ok prog [] => mkRun (Returned 0) (Some prog) "" ""
  | Ok prog rest =>
      error (yysyntax_error_ (consumed scanner rest) (hd_error rest))
        (mkRun (Returned 1) (Some prog) "" "")
  | SyntaxErr rest =>
      error (yysyntax_error_ (consumed scanner rest) (hd_error rest))
        (mkRun (Returned 1) root0 "" "")
  | Crash f => mkRun (Died f) root0 "" ""
  | OutOfFuel => mkRun Unfinished root0 "" ""
  end.

End Driver.

End Parser.

(** ** Vocabulary of the statements about the unparser *)

Module Rendering.

Import Unparse.

(** The statement kinds that test the sentinel [-1]. *)
Definition embeddable (s : StmtNode) : bool :=
  match s with
  | CallStmtNode _ _ | PostIncStmtNode _ _ | PostDecStmtNode _ _
  | MaybeStmtNode _ _ _ _ => true
  | _ => false
  end.

(** What such a statement writes between its indentation and its
    terminator. *)
Definition core (s : StmtNode) : string :=
  match s with
  | CallStmtNode _ call => ExpNode_unparse (CallExp_as_Exp call) 0
  | PostIncStmtNode _ loc => IDNode_unparse loc 0 ++ "++"
  | PostDecStmtNode _ loc => IDNode_unparse loc 0 ++ "--"
  | MaybeStmtNode _ dst src1 src2 =>
      "maybe " ++ IDNode_unparse dst 0 ++ " means " ++ ExpNode_unparse src1 0
        ++ " otherwise " ++ ExpNode_unparse src2 0
  | _ => ""
  end.

(** The spelling and the operands of a binary operator node. *)
Definition binary_parts (e : ExpNode) : option (string * ExpNode * ExpNode) :=
  match e with
  | PlusNode _ e1 e2 => Some ("+", e1, e2)
  | MinusNode _ e1 e2 => Some ("-", e1, e2)
  | TimesNode _ e1 e2 => Some ("*", e1, e2)
  | DivideNode _ e1 e2 => Some ("/", e1, e2)
  | AndNode _ e1 e2 => Some ("and", e1, e2)
  | OrNode _ e1 e2 => Some ("or", e1, e2)
  | EqualsNode _ e1 e2 => Some ("==", e1, e2)
  | NotEqualsNode _ e1 e2 => Some ("!=", e1, e2)
  | LessNode _ e1 e2 => Some ("<", e1, e2)
  | LessEqNode _ e1 e2 => Some ("<=", e1, e2)
  | GreaterNode _ e1 e2 => Some (">", e1, e2)
  | GreaterEqNode _ e1 e2 => Some (">=", e1, e2)
  | _ => None
  end.

Definition is_unary (e : ExpNode) : bool :=
  match e with
  | NegNode _ _ | NotNode _ _ => true
  | _ => false
  end.

Definition is_binary (e : ExpNode) : bool :=
  match binary_parts e with
  | Some _ => true
  | None => false
  end.

(** The text of a literal. *)
Definition literal_text (e : ExpNode) : option string :=
  match e with
  | IntLitNode _ n => Some (show_int n)
  | StrLitNode _ s => Some s
  | TrueNode _ => Some "true"
  | FalseNode _ => Some "false"
  | EhNode _ => Some "eh?"
  | _ => None
  end.

(** Sample nodes: the statement [x++], and the expression
    [2 + (a * true)] with its operands. *)
Definition x_postinc : StmtNode :=
  PostIncStmtNode (mkPosition 1 1 1 4) (mkIDNode (mkPosition 1 1 1 2) "x").

Definition lit_two : ExpNode := IntLitNode (mkPosition 1 1 1 2) 2.

Definition a_times_true : ExpNode :=
  TimesNode (mkPosition 1 5 1 13)
    (LocExp (mkIDNode (mkPosition 1 5 1 6) "a"))
    (TrueNode (mkPosition 1 9 1 13)).

Definition two_plus_product : ExpNode :=
  PlusNode (mkPosition 1 1 1 13) lit_two a_times_true.

End Rendering.

(** ** Vocabulary of the statements about the parser *)

Module Inputs.

(** The terminals that are a whole [term] on their own. *)
Definition atom (k : symbol_kind) : bool :=
  match k with
  | S_ID | S_INTLITERAL | S_STRINGLITERAL | S_TRUE | S_FALSE | S_EH => true
  | _ => false
  end.

(** What may follow an operand for it to end there: the end of the
    input, or a token that extends neither a [loc] nor a [callExp]. *)
Definition ends_operand (rest : list Token) : bool :=
  match rest with
  | [] => true
  | t :: _ =>
      negb (symbol_kind_beq S_ARROW (kind t))
        && negb (symbol_kind_beq S_LPAREN (kind t))
  end.

Definition kind_of_head (toks : list Token) : option symbol_kind :=
  option_map kind (hd_error toks).

(** A span on line 1, from column [a] to column [b]. *)
Definition at_cols (a b : Z) : Position := mkPosition 1 a 1 b.

(** The tokens of the text [x: int;]. *)
Definition x_int : list Token :=
  [ID (at_cols 1 2) "x"; COLON (at_cols 2 3); INT (at_cols 4 7);
   SEMICOL (at_cols 7 8)].

(** The tokens of the text [y: bool;] on the same line. *)
Definition y_bool : list Token :=
  [ID (at_cols 9 10) "y"; COLON (at_cols 10 11); BOOL (at_cols 12 16);
   SEMICOL (at_cols 16 17)].

(** The tokens of the text [x: int = 5;]. *)
Definition x_int_5 : list Token :=
  [ID (at_cols 1 2) "x"; COLON (at_cols 2 3); INT (at_cols 4 7);
   ASSIGN (at_cols 8 9); INTLITERAL (at_cols 10 11) 5;
   SEMICOL (at_cols 11 12)].

(** The tokens of the expression [2 + 3 * 4]. *)
Definition two_plus_three_times_four : list Token :=
  [INTLITERAL (at_cols 11 12) 2; CROSS (at_cols 13 14);
   INTLITERAL (at_cols 15 16) 3; STAR (at_cols 17 18);
   INTLITERAL (at_cols 19 20) 4].

(** The tokens of the expression [!a * b]. *)
Definition not_a_times_b : list Token :=
  [NOT (at_cols 11 12); ID (at_cols 12 13) "a"; STAR (at_cols 14 15);
   ID (at_cols 16 17) "b"].

(** The tokens of the expression [a < b < c]. *)
Definition a_less_b_less_c : list Token :=
  [ID (at_cols 11 12) "a"; LESS (at_cols 13 14); ID (at_cols 15 16) "b";
   LESS (at_cols 17 18); ID (at_cols 19 20) "c"].

(** The tokens of [x: int = ], to be followed by an initializer. *)
Definition x_int_init : list Token :=
  [ID (at_cols 1 2) "x"; COLON (at_cols 2 3); INT (at_cols 4 7);
   ASSIGN (at_cols 8 9)].

(** A fixed text for the verbose message. *)
Definition some_message (read : list Token) (la : option Token) : string :=
  "syntax error, unexpected token".

(** The node the text [x: int;] stands for. *)
Definition x_int_node (init : option ExpNode) : VarDeclNode :=
  mkVarDeclNode (at_cols 1 3) (mkIDNode (at_cols 1 2) "x")
    (IntTypeNode (at_cols 4 7)) init.

End Inputs.

(** ** Vocabulary of further statements about the unparser *)

Module Layout.

Import Unparse.

(** The last character of a text, if it has one. *)
Fixpoint last_char (s : string) : option ascii :=
  match s with
  | EmptyString => None
  | String c EmptyString => Some c
  | String _ s' => last_char s'
  end.

(** The statements whose [unparse] has no body to indent and does not
    test the sentinel. *)
Definition plain_statement (s : StmtNode) : bool :=
  match s with
  | AssignStmtNode _ _ _ | ReturnStmtNode _ _ | FromConsoleStmtNode _ _
  | ToConsoleStmtNode _ _ | DeclStmt (VarDecl _) => true
  | _ => false
  end.

(** A formal declaration, the one statement-typed node whose [unparse]
    writes no line end. *)
Definition is_formal (s : StmtNode) : bool :=
  match s with
  | DeclStmt (FormalDecl _) => true
  | _ => false
  end.

(** Opening minus closing parentheses in a text. *)
Fixpoint paren_balance (s : string) : Z :=
  match s with
  | EmptyString => 0
  | String c s' =>
      (if Ascii.eqb c "("%char then 1
       else if Ascii.eqb c ")"%char then -1 else 0)
      + paren_balance s'
  end.

(** The same count over the texts an expression takes from its tokens:
    its identifiers and string literals. *)
Fixpoint text_balance (e : ExpNode) : Z :=
  match e with
  | LocExp id => paren_balance (name id)
  | CallExpNode _ callee args =>
      paren_balance (name callee)
        + fold_right (fun arg acc => text_balance arg + acc) 0 args
  | StrLitNode _ s => paren_balance s
  | IntLitNode _ _ | TrueNode _ | FalseNode _ | EhNode _ => 0
  | PlusNode _ e1 e2 | MinusNode _ e1 e2 | TimesNode _ e1 e2
  | DivideNode _ e1 e2 | AndNode _ e1 e2 | OrNode _ e1 e2
  | EqualsNode _ e1 e2 | NotEqualsNode _ e1 e2 | LessNode _ e1 e2
  | LessEqNode _ e1 e2 | GreaterNode _ e1 e2 | GreaterEqNode _ e1 e2 =>
      text_balance e1 + text_balance e2
  | NegNode _ e1 | NotNode _ e1 => text_balance e1
  end.

(** Sample nodes: the call [f(x, 2)], the statement [x = 2;], the
    function [f : (a : int, b : bool) -> int { }], and a program with a
    null declaration in the middle. *)
Definition id_x : IDNode := mkIDNode (mkPosition 1 1 1 2) "x".

Definition call_f : ExpNode :=
  CallExpNode (mkPosition 1 1 1 8) (mkIDNode (mkPosition 1 1 1 2) "f")
    [LocExp id_x; IntLitNode (mkPosition 1 6 1 7) 2].

Definition x_becomes_two : StmtNode :=
  AssignStmtNode (mkPosition 1 1 1 6) id_x (IntLitNode (mkPosition 1 5 1 6) 2).

Definition x_is_int : DeclNode :=
  VarDecl (mkVarDeclNode (mkPosition 1 1 1 3) id_x
             (IntTypeNode (mkPosition 1 4 1 7)) None).

Definition fn_f : DeclNode :=
  FnDeclNode (mkPosition 1 1 1 30) (mkIDNode (mkPosition 1 1 1 2) "f")
    [mkFormalDeclNode (mkPosition 1 6 1 13)
       (mkIDNode (mkPosition 1 6 1 7) "a") (IntTypeNode (mkPosition 1 10 1 13));
     mkFormalDeclNode (mkPosition 1 15 1 23)
       (mkIDNode (mkPosition 1 15 1 16) "b")
       (BoolTypeNode (mkPosition 1 19 1 23))]
    (IntTypeNode (mkPosition 1 28 1 31)) [].

End Layout.

(** ** Vocabulary of further statements about the parser *)

Module Fragment.

Import Inputs.

(** A declaration [name : int ;] or [name : bool ;] as the scanner
    delivers it: the name, whether the type is [bool], and the positions
    of the four tokens. *)
Record SimpleDecl : Type := mkSimpleDecl
  { sd_name_pos : Position; sd_name : string; sd_colon_pos : Position;
    sd_bool : bool; sd_type_pos : Position; sd_semicol_pos : Position }.

Definition decl_tokens (d : SimpleDecl) : list Token :=
  [ID (sd_name_pos d) (sd_name d); COLON (sd_colon_pos d);
   (if sd_bool d then BOOL (sd_type_pos d) else INT (sd_type_pos d));
   SEMICOL (sd_semicol_pos d)].

(** The node the action of [varDecl : name COLON type] builds for it. *)
Definition decl_node (d : SimpleDecl) : DeclNode :=
  VarDecl
    (mkVarDeclNode (Position_merge (sd_name_pos d) (sd_colon_pos d))
       (mkIDNode (sd_name_pos d) (sd_name d))
       (if sd_bool d then BoolTypeNode (sd_type_pos d)
        else IntTypeNode (sd_type_pos d))
       None).

(** Its line of canonical text. *)
Definition decl_text (d : SimpleDecl) : string :=
  sd_name d ++ ": " ++ (if sd_bool d then "bool" else "int") ++ ";" ++ nl.

Definition program_tokens (ds : list SimpleDecl) : list Token :=
  flat_map decl_tokens ds.

Definition program_nodes (ds : list SimpleDecl) : list (option DeclNode) :=
  map (fun d => Some (decl_node d)) ds.

(** The span from the first declaration to the last. *)
Definition program_span (ds : list SimpleDecl) : Position :=
  match ds with
  | [] => mkPosition 0 0 0 0
  | d :: _ =>
      Position_merge (DeclNode_pos (decl_node d))
        (DeclNode_pos (decl_node (last ds d)))
  end.

(** What the grammar's actions can build for a declaration: a variable
    of type [int] or [bool], without initializer, whose position starts
    where its name starts. *)
Definition built_by_grammar (d : DeclNode) : Prop :=
  match d with
  | VarDecl v =>
      myInit v = None /\
      (exists p, myType v = IntTypeNode p \/ myType v = BoolTypeNode p) /\
      startLine (vd_pos v) = startLine (id_pos (myID v)) /\
      startCol (vd_pos v) = startCol (id_pos (myID v))
  | _ => False
  end.

(** The [exp] rules reduced, in order, when [a op1 b op2 c] groups to the
    left, as [(a op1 b) op2 c], and to the right, as [a op1 (b op2 c)]. *)
Definition grouped_left (k1 k2 : symbol_kind) : list ExpRule :=
  [exp_term; exp_term; exp_binary k1; exp_term; exp_binary k2].

Definition grouped_right (k1 k2 : symbol_kind) : list ExpRule :=
  [exp_term; exp_term; exp_term; exp_binary k2; exp_binary k1].

(** Sample input: the declarations [x: int;] and [y: bool;], and the
    tokens of the function [f : () -> void { }]. *)
Definition decl_x : SimpleDecl :=
  mkSimpleDecl (at_cols 1 2) "x" (at_cols 2 3) false (at_cols 4 7)
    (at_cols 7 8).

Definition decl_y : SimpleDecl :=
  mkSimpleDecl (at_cols 40 41) "y" (at_cols 41 42) true (at_cols 43 47)
    (at_cols 47 48).

Definition fn_tokens : list Token :=
  [ID (at_cols 9 10) "f"; COLON (at_cols 11 12); LPAREN (at_cols 13 14);
   RPAREN (at_cols 14 15); ARROW (at_cols 16 18); VOID (at_cols 19 23);
   LCURLY (at_cols 24 25); RCURLY (at_cols 26 27)].

(** The tokens of [v : void ;]. *)
Definition v_void : list Token :=
  [ID (at_cols 1 2) "v"; COLON (at_cols 3 4); VOID (at_cols 5 9);
   SEMICOL (at_cols 9 10)].

(** A part of the parser reads its input from the front: whether it
    succeeds or stops at an unexpected token, what it leaves is a final
    part of what it was given. *)
Definition reads_front {A : Type} (m : Parser.M A) : Prop :=
  forall toks,
    match m toks with
    | Parser.Ok _ rest | Parser.SyntaxErr rest =>
        exists read, toks = (read ++ rest)%list
    | _ => True
    end.

(** The opening of a function, [f : () -> void {], with any name and
    positions. *)
Definition fn_open (pf : Position) (f : string)
    (p1 p2 p3 p4 p5 p6 : Position) : list Token :=
  [ID pf f; COLON p1; LPAREN p2; RPAREN p3; ARROW p4; VOID p5; LCURLY p6].

(** No token of the input is a closing brace. *)
Definition never_closed (toks : list Token) : Prop :=
  forall t, In t toks -> kind t <> S_RCURLY.

(** The tokens of a run of statements [return;], one per pair of
    positions. *)
Definition return_tokens (ps : list (Position * Position)) : list Token :=
  flat_map (fun p => [RETURN (fst p); SEMICOL (snd p)]) ps.

Section RootClaim.

Variable msg : list Token -> option Token -> string.

(** The specification's sentence on the root, as it stands: the root is
    assigned only when parsing succeeds, so a run that ends otherwise
    leaves in it what the caller put there. *)
Definition root_assigned_only_on_success
    (toks : list Token) (root0 : option ProgramNode) : Prop :=
  Parser.outcome (Parser.parse msg toks root0) <> Parser.Returned 0 ->
  Parser.root (Parser.parse msg toks root0) = root0.

End RootClaim.

End Fragment.

(** * Properties of the unparser *)

Module RenderingFacts.

Import Unparse Rendering.

Lemma append_assoc (a b c : string) : (a ++ b) ++ c = a ++ (b ++ c).
Proof.
  induction a as [|ch a IH]; simpl; [reflexivity | now rewrite IH].
Qed.

Lemma append_empty_r (a : string) : a ++ "" = a.
Proof.
  induction a as [|ch a IH]; simpl; [reflexivity | now rewrite IH].
Qed.

Lemma unless_inline_sentinel (s : string) : unless_inline (-1) s = "".
Proof. reflexivity. Qed.

Lemma unless_inline_nonneg (indent : Z) (s : string) :
  0 <= indent -> unless_inline indent s = s.
Proof.
  intros H. unfold unless_inline.
  destruct (Z.eqb_spec indent (-1)) as [E|E]; [lia | reflexivity].
Qed.

(** C8. For a CallStmt, PostInc, PostDec or Maybe statement, [unparse]
    with the sentinel indentation -1 writes the core text alone, without
    leading tabs and without the terminating semicolon and newline; with
    an indentation [n >= 0] it writes [n] tabs, the same core text, and
    then the semicolon and newline. *)
Theorem inline_sentinel_frames_core (s : StmtNode) :
  embeddable s = true ->
  StmtNode_unparse s (-1) = core s /\
  forall n : nat,
    StmtNode_unparse s (Z.of_nat n) = tabs n ++ core s ++ ";" ++ nl.
Proof.
  intros Hs.
  destruct s; try discriminate Hs; cbn [StmtNode_unparse core]; split;
    try (rewrite !unless_inline_sentinel;
         rewrite ?append_empty_r; reflexivity);
    intros n;
    rewrite !unless_inline_nonneg by lia;
    unfold doIndent; rewrite Nat2Z.id;
    rewrite ?append_assoc; reflexivity.
Qed.

Lemma inline_sentinel_frames_core_witness :
  embeddable x_postinc = true /\
  StmtNode_unparse x_postinc (-1) = "x++" /\
  StmtNode_unparse x_postinc 2 = tab ++ tab ++ "x++;" ++ nl.
Proof.
  split; [reflexivity|].
  destruct (inline_sentinel_frames_core x_postinc eq_refl) as [H1 H2].
  split; [exact H1 | exact (H2 2%nat)].
Defined.

Lemma call_unfold (p : Position) (callee : IDNode) (args : list ExpNode)
    (indent : Z) :
  ExpNode_unparse (CallExpNode p callee args) indent =
    doIndent indent ++ name callee ++ "("
      ++ unparse_args ExpNode_unparse true args ++ ")".
Proof.
  cbn [ExpNode_unparse]. unfold IDNode_unparse. do 4 f_equal.
  assert (forall b,
            (fix go (firstArg : bool) (l : list ExpNode) : string :=
               match l with
               | [] => ""
               | arg :: rest =>
                   (if firstArg then "" else ", ") ++ ExpNode_unparse arg 0
                     ++ go false rest
               end) b args = unparse_args ExpNode_unparse b args) as H.
  { induction args as [|arg rest IH]; intros b; [reflexivity|].
    cbn [unparse_args]. now rewrite <- IH. }
  apply H.
Qed.

Lemma nested_parenthesised (e : ExpNode) :
  overrides_unparseNested e = false ->
  ExpNode_unparseNested e = "(" ++ ExpNode_unparse e 0 ++ ")".
Proof.
  intros H. unfold ExpNode_unparseNested, unparseNested_via. now rewrite H.
Qed.

Lemma binary_unfold (op : string) (e e1 e2 : ExpNode) (indent : Z) :
  binary_parts e = Some (op, e1, e2) ->
  ExpNode_unparse e indent =
    doIndent indent ++ ExpNode_unparseNested e1 ++ " " ++ op ++ " "
      ++ ExpNode_unparseNested e2.
Proof.
  intros H.
  destruct e; simpl in H; try discriminate H;
    injection H as <- <- <-; reflexivity.
Qed.

(** C9. A binary or unary expression node rendered through
    [unparseNested] is wrapped in parentheses; a binary operator node
    renders (after its own indentation, which is empty at the level 0 at
    which operands are rendered) as the nested rendering of the left
    operand, the operator between single spaces, and the nested rendering
    of the right operand; the five literals render through
    [unparseNested] as their bare text. *)
Theorem nested_rendering (e : ExpNode) :
  (is_binary e = true \/ is_unary e = true ->
   ExpNode_unparseNested e = "(" ++ ExpNode_unparse e 0 ++ ")") /\
  (forall op e1 e2, binary_parts e = Some (op, e1, e2) ->
     (forall indent,
        ExpNode_unparse e indent =
          doIndent indent ++ ExpNode_unparseNested e1 ++ " " ++ op ++ " "
            ++ ExpNode_unparseNested e2) /\
     ExpNode_unparse e 0 =
       ExpNode_unparseNested e1 ++ " " ++ op ++ " "
         ++ ExpNode_unparseNested e2) /\
  (forall txt, literal_text e = Some txt -> ExpNode_unparseNested e = txt).
Proof.
  split; [|split].
  - intros [H|H]; apply nested_parenthesised;
      destruct e; simpl in H; try discriminate H; reflexivity.
  - intros op e1 e2 H. split.
    + intros indent. now apply binary_unfold.
    + now rewrite (binary_unfold op e e1 e2 0 H).
  - intros txt H.
    destruct e; simpl in H; try discriminate H; injection H as <-;
      reflexivity.
Qed.

Lemma nested_rendering_witness :
  ExpNode_unparseNested a_times_true = "((a) * true)" /\
  ExpNode_unparse two_plus_product 0 = "2 + ((a) * true)" /\
  ExpNode_unparseNested lit_two = "2".
Proof.
  split; [|split].
  - exact (proj1 (nested_rendering a_times_true) (or_introl eq_refl)).
  - exact (proj2 (proj1 (proj2 (nested_rendering two_plus_product))
                    "+" lit_two a_times_true eq_refl)).
  - exact (proj2 (proj2 (nested_rendering lit_two)) "2" eq_refl).
Defined.

(** C10. [VarDeclNode::unparse] writes, after the tabs of its
    indentation (none at level 0), the identifier, a colon and a space,
    the rendering of the type, a semicolon and a newline; the stored
    initializer plays no part in the output. *)
Theorem var_decl_never_renders_initializer
    (p : Position) (id : IDNode) (ty : TypeNode) (init : option ExpNode)
    (indent : Z) :
  VarDeclNode_unparse (mkVarDeclNode p id ty init) indent =
    doIndent indent ++ name id ++ ": " ++ TypeNode_unparse ty 0 ++ ";" ++ nl
  /\ VarDeclNode_unparse (mkVarDeclNode p id ty init) 0 =
       name id ++ ": " ++ TypeNode_unparse ty 0 ++ ";" ++ nl
  /\ VarDeclNode_unparse (mkVarDeclNode p id ty init) indent =
       VarDeclNode_unparse (mkVarDeclNode p id ty None) indent.
Proof. repeat split. Qed.

End RenderingFacts.

(** * Properties of the parser *)

Module ParserFacts.

Import Parser.

Local Open Scope nat_scope.
Local Open Scope list_scope.

Local Abbreviation length := List.length.

(** ** Inversion of the combinators *)

Lemma bind_Ok {A B : Type} (m : M A) (k : A -> M B) toks b rest :
  bind m k toks = Ok b rest ->
  exists a mid, m toks = Ok a mid /\ k a mid = Ok b rest.
Proof.
  unfold bind. destruct (m toks) as [a mid| | |]; try discriminate.
  intros H. now exists a, mid.
Qed.

Lemma bind_OutOfFuel {A B : Type} (m : M A) (k : A -> M B) toks :
  bind m k toks = OutOfFuel ->
  m toks = OutOfFuel \/
  exists a mid, m toks = Ok a mid /\ k a mid = OutOfFuel.
Proof.
  unfold bind. destruct (m toks) as [a mid| | |]; try discriminate.
  - intros H. right. now exists a, mid.
  - intros _. now left.
Qed.

Lemma peek_eq {B : Type} (k : option symbol_kind -> M B) toks :
  bind peek k toks = k (option_map kind (hd_error toks)) toks.
Proof. reflexivity. Qed.

Lemma expect_Ok k toks t rest :
  expect k toks = Ok t rest -> toks = t :: rest /\ kind t = k.
Proof.
  unfold expect. destruct toks as [|t' toks']; try discriminate.
  destruct (symbol_kind_beq k (kind t')) eqn:E; try discriminate.
  intros H. injection H as <- <-.
  split; [reflexivity|]. symmetry. now apply internal_symbol_kind_dec_bl.
Qed.

Lemma expect_fuel k toks : expect k toks <> OutOfFuel.
Proof.
  unfold expect. destruct toks as [|t' toks']; try discriminate.
  destruct (symbol_kind_beq k (kind t')); discriminate.
Qed.

Lemma expect_same t rest : expect (kind t) (t :: rest) = Ok t rest.
Proof.
  unfold expect. now rewrite internal_symbol_kind_dec_lb.
Qed.

Lemma is_kind_true k la : is_kind k la = true -> la = Some k.
Proof.
  destruct la as [k'|]; simpl; try discriminate.
  intros H. f_equal. symmetry. now apply internal_symbol_kind_dec_bl.
Qed.

Lemma yy_name_Ok toks id rest :
  yy_name toks = Ok id rest -> length toks = S (length rest).
Proof.
  unfold yy_name. intros H.
  apply bind_Ok in H. destruct H as (t & mid & H1 & H2).
  apply expect_Ok in H1. destruct H1 as [-> _].
  unfold ret in H2. injection H2 as _ <-. reflexivity.
Qed.

Lemma yy_name_fuel toks : yy_name toks <> OutOfFuel.
Proof.
  unfold yy_name, bind. destruct (expect S_ID toks) eqn:E; try discriminate.
  now apply expect_fuel in E.
Qed.

Lemma yy_loc_rest_bounds (n : nat) : forall toks cur,
  length toks <= n ->
  yy_loc_rest cur toks <> OutOfFuel /\
  forall v rest, yy_loc_rest cur toks = Ok v rest ->
                 length rest <= length toks.
Proof.
  induction n as [|n IH]; intros toks cur Hn.
  - destruct toks; [|simpl in Hn; lia]. simpl. split; [discriminate|].
    intros v rest H. injection H as _ <-. simpl. lia.
  - destruct toks as [|a toks']; simpl.
    + split; [discriminate|]. intros v rest H. injection H as _ <-.
      simpl. lia.
    + destruct (symbol_kind_beq S_ARROW (kind a)).
      * destruct toks' as [|t toks'']; [simpl; split; [discriminate | intros; discriminate]|].
        destruct (symbol_kind_beq S_ID (kind t)); [|simpl; split; [discriminate | intros; discriminate]].
        destruct (IH toks'' None) as [H1 H2]; [simpl in Hn; lia|].
        split; [exact H1|].
        intros v rest H. apply H2 in H. simpl. lia.
      * split; [discriminate|]. intros v rest H. injection H as _ <-.
        simpl. lia.
Qed.

Lemma yy_loc_rest_Ok toks cur v rest :
  yy_loc_rest cur toks = Ok v rest -> length rest <= length toks.
Proof. apply (yy_loc_rest_bounds (length toks)). lia. Qed.

Lemma yy_loc_rest_fuel toks cur : yy_loc_rest cur toks <> OutOfFuel.
Proof. apply (yy_loc_rest_bounds (length toks)). lia. Qed.

Lemma expect_len k toks t rest :
  expect k toks = Ok t rest -> length toks = S (length rest).
Proof. intros H. apply expect_Ok in H. destruct H as [-> _]. reflexivity. Qed.

Lemma ret_Ok {A : Type} (a b : A) toks rest :
  ret a toks = Ok b rest -> a = b /\ toks = rest.
Proof. unfold ret. intros H. injection H as <- <-. now split. Qed.

Lemma yy_loc_Ok toks v rest :
  yy_loc toks = Ok v rest -> length rest < length toks.
Proof.
  unfold yy_loc. intros H.
  apply bind_Ok in H. destruct H as (id & mid & H1 & H2).
  apply yy_name_Ok in H1. apply yy_loc_rest_Ok in H2. lia.
Qed.

Lemma yy_loc_fuel toks : yy_loc toks <> OutOfFuel.
Proof.
  unfold yy_loc. intros H. apply bind_OutOfFuel in H.
  destruct H as [H|(id & mid & _ & H)].
  - now apply yy_name_fuel in H.
  - now apply yy_loc_rest_fuel in H.
Qed.

(** ** Every production consumes its tokens *)

(** Break a successful run into the runs of its parts. *)
Ltac invert_Ok :=
  repeat match goal with
  | H : bind peek _ _ = Ok _ _ |- _ => rewrite peek_eq in H
  | H : bind _ _ _ = Ok _ _ |- _ =>
      apply bind_Ok in H; destruct H as (? & ? & ? & H)
  | H : ret _ _ = Ok _ _ |- _ => apply ret_Ok in H; destruct H as [? ?]
  | H : syntax_error _ = Ok _ _ |- _ => discriminate H
  | H : out_of_fuel _ = Ok _ _ |- _ => discriminate H
  | H : expect _ _ = Ok _ _ |- _ => apply expect_len in H
  | H : yy_name _ = Ok _ _ |- _ => apply yy_name_Ok in H
  | H : yy_loc _ = Ok _ _ |- _ => apply yy_loc_Ok in H
  | H : yy_loc_rest _ _ = Ok _ _ |- _ => apply yy_loc_rest_Ok in H
  | H : (if ?c then _ else _) _ = Ok _ _ |- _ => destruct c
  | H : match ?x with _ => _ end _ = Ok _ _ |- _ => destruct x
  end.

Lemma exp_consumes (fuel : nat) :
  (forall stack done toks r rest,
     yy_exp fuel stack done toks = Ok r rest -> length rest < length toks) /\
  (forall stack done toks r rest,
     yy_operator fuel stack done toks = Ok r rest ->
     length rest <= length toks) /\
  (forall done toks r rest,
     yy_term fuel done toks = Ok r rest -> length rest < length toks) /\
  (forall done toks r rest,
     yy_actualList fuel done toks = Ok r rest -> length rest < length toks).
Proof.
  induction fuel as [|fuel (IHe & IHo & IHt & IHa)].
  - repeat split; intros; discriminate.
  - repeat split.
    + intros stack done toks r rest H. cbn [yy_exp] in H.
      invert_Ok;
        repeat match goal with
        | H : yy_exp fuel _ _ _ = Ok _ _ |- _ => apply IHe in H
        | H : yy_operator fuel _ _ _ = Ok _ _ |- _ => apply IHo in H
        | H : yy_term fuel _ _ = Ok _ _ |- _ => apply IHt in H
        end; subst; lia.
    + intros stack done toks r rest H. cbn [yy_operator] in H.
      invert_Ok;
        repeat match goal with
        | H : yy_exp fuel _ _ _ = Ok _ _ |- _ => apply IHe in H
        | H : yy_operator fuel _ _ _ = Ok _ _ |- _ => apply IHo in H
        end; subst; lia.
    + intros done toks r rest H. cbn [yy_term] in H.
      invert_Ok;
        repeat match goal with
        | H : yy_exp fuel _ _ _ = Ok _ _ |- _ => apply IHe in H
        | H : yy_actualList fuel _ _ = Ok _ _ |- _ => apply IHa in H
        end; subst; lia.
    + intros done toks r rest H. cbn [yy_actualList] in H.
      invert_Ok;
        repeat match goal with
        | H : yy_exp fuel _ _ _ = Ok _ _ |- _ => apply IHe in H
        | H : yy_actualList fuel _ _ = Ok _ _ |- _ => apply IHa in H
        end; subst; lia.
Qed.

Lemma yy_exp_Ok fuel stack done toks r rest :
  yy_exp fuel stack done toks = Ok r rest -> length rest < length toks.
Proof. apply exp_consumes. Qed.

Lemma yy_operator_Ok fuel stack done toks r rest :
  yy_operator fuel stack done toks = Ok r rest -> length rest <= length toks.
Proof. apply exp_consumes. Qed.

Lemma yy_term_Ok fuel done toks r rest :
  yy_term fuel done toks = Ok r rest -> length rest < length toks.
Proof. apply exp_consumes. Qed.

Lemma yy_actualList_Ok fuel done toks r rest :
  yy_actualList fuel done toks = Ok r rest -> length rest < length toks.
Proof. apply exp_consumes. Qed.

(** ** The fuel always suffices *)

(** Find the part of a run that would have exhausted the fuel. *)
Ltac invert_OutOfFuel :=
  repeat match goal with
  | H : bind peek _ _ = OutOfFuel |- _ => rewrite peek_eq in H
  | H : bind _ _ _ = OutOfFuel |- _ =>
      apply bind_OutOfFuel in H; destruct H as [H|(? & ? & ? & H)]
  | H : ret _ _ = OutOfFuel |- _ => discriminate H
  | H : syntax_error _ = OutOfFuel |- _ => discriminate H
  | H : lift _ _ = OutOfFuel |- _ =>
      unfold lift in H;
      match type of H with
      | match ?r with _ => _ end = _ => destruct r; discriminate H
      end
  | H : expect _ _ = OutOfFuel |- _ => now apply expect_fuel in H
  | H : yy_name _ = OutOfFuel |- _ => now apply yy_name_fuel in H
  | H : yy_loc _ = OutOfFuel |- _ => now apply yy_loc_fuel in H
  | H : yy_loc_rest _ _ = OutOfFuel |- _ => now apply yy_loc_rest_fuel in H
  | H : (if ?c then _ else _) _ = OutOfFuel |- _ => destruct c
  | H : match ?x with _ => _ end _ = OutOfFuel |- _ => destruct x
  end.

Ltac exp_lengths :=
  repeat match goal with
  | H : yy_exp _ _ _ _ = Ok _ _ |- _ => apply yy_exp_Ok in H
  | H : yy_operator _ _ _ _ = Ok _ _ |- _ => apply yy_operator_Ok in H
  | H : yy_term _ _ _ = Ok _ _ |- _ => apply yy_term_Ok in H
  | H : yy_actualList _ _ _ = Ok _ _ |- _ => apply yy_actualList_Ok in H
  end.

Lemma exp_fuel_suffices (fuel : nat) :
  (forall stack done toks,
     2 * length toks + length stack + 2 <= fuel ->
     yy_exp fuel stack done toks <> OutOfFuel) /\
  (forall stack done toks,
     2 * length toks + length stack + 2 <= fuel ->
     yy_operator fuel stack done toks <> OutOfFuel) /\
  (forall done toks,
     2 * length toks + 1 <= fuel -> yy_term fuel done toks <> OutOfFuel) /\
  (forall done toks,
     2 * length toks + 3 <= fuel ->
     yy_actualList fuel done toks <> OutOfFuel).
Proof.
  induction fuel as [|fuel (IHe & IHo & IHt & IHa)].
  - repeat split; intros; lia.
  - repeat split.
    + intros stack done toks Hf H. cbn [yy_exp] in H.
      invert_OutOfFuel; invert_Ok; exp_lengths;
        match goal with
        | H : yy_exp fuel _ _ _ = OutOfFuel |- _ => apply IHe in H
        | H : yy_operator fuel _ _ _ = OutOfFuel |- _ => apply IHo in H
        | H : yy_term fuel _ _ = OutOfFuel |- _ => apply IHt in H
        end; subst; simpl in *; lia.
    + intros stack done toks Hf H. cbn [yy_operator] in H.
      invert_OutOfFuel; invert_Ok; exp_lengths;
        match goal with
        | H : yy_exp fuel _ _ _ = OutOfFuel |- _ => apply IHe in H
        | H : yy_operator fuel _ _ _ = OutOfFuel |- _ => apply IHo in H
        end; subst; simpl in *; lia.
    + intros done toks Hf H. cbn [yy_term] in H.
      invert_OutOfFuel; invert_Ok; exp_lengths;
        match goal with
        | H : yy_exp fuel _ _ _ = OutOfFuel |- _ => apply IHe in H
        | H : yy_actualList fuel _ _ = OutOfFuel |- _ => apply IHa in H
        end; subst; simpl in *; lia.
    + intros done toks Hf H. cbn [yy_actualList] in H.
      invert_OutOfFuel; invert_Ok; exp_lengths;
        match goal with
        | H : yy_exp fuel _ _ _ = OutOfFuel |- _ => apply IHe in H
        | H : yy_actualList fuel _ _ = OutOfFuel |- _ => apply IHa in H
        end; subst; simpl in *; lia.
Qed.

Lemma parse_exp_Ok toks r rest :
  parse_exp toks = Ok r rest -> length rest < length toks.
Proof. apply yy_exp_Ok. Qed.

Lemma parse_exp_fuel toks : parse_exp toks <> OutOfFuel.
Proof.
  apply (proj1 (exp_fuel_suffices (exp_fuel toks))).
  unfold exp_fuel. simpl. lia.
Qed.

Lemma parse_callArgs_Ok toks r rest :
  parse_callArgs toks = Ok r rest -> length rest < length toks.
Proof.
  unfold parse_callArgs. intros H. invert_Ok; exp_lengths; subst; lia.
Qed.

Lemma parse_callArgs_fuel toks : parse_callArgs toks <> OutOfFuel.
Proof.
  unfold parse_callArgs. intros H. invert_OutOfFuel.
  match goal with
  | H : yy_actualList _ _ _ = OutOfFuel |- _ =>
      apply (proj2 (proj2 (proj2 (exp_fuel_suffices _)))) in H;
      [exact H | unfold exp_fuel; lia]
  end.
Qed.

Lemma yy_primType_Ok toks v rest :
  yy_primType toks = Ok v rest -> length rest < length toks.
Proof.
  unfold yy_primType. destruct toks as [|t toks']; [discriminate|].
  destruct (kind t); try discriminate;
    intros H; injection H as _ <-; simpl; lia.
Qed.

Lemma yy_primType_fuel toks : yy_primType toks <> OutOfFuel.
Proof.
  unfold yy_primType. destruct toks as [|t toks']; [discriminate|].
  destruct (kind t); discriminate.
Qed.

Lemma yy_datatype_Ok toks v rest :
  yy_datatype toks = Ok v rest -> length rest < length toks.
Proof.
  unfold yy_datatype. intros H. invert_Ok;
    repeat match goal with
    | H : yy_primType _ = Ok _ _ |- _ => apply yy_primType_Ok in H
    end; subst; lia.
Qed.

Lemma yy_datatype_fuel toks : yy_datatype toks <> OutOfFuel.
Proof.
  unfold yy_datatype. intros H. invert_OutOfFuel;
    match goal with
    | H : yy_primType _ = OutOfFuel |- _ => now apply yy_primType_fuel in H
    end.
Qed.

Lemma yy_type_Ok toks v rest :
  yy_type toks = Ok v rest -> length rest < length toks.
Proof.
  unfold yy_type. intros H. invert_Ok;
    repeat match goal with
    | H : yy_datatype _ = Ok _ _ |- _ => apply yy_datatype_Ok in H
    end; subst; lia.
Qed.

Lemma yy_type_fuel toks : yy_type toks <> OutOfFuel.
Proof.
  unfold yy_type. intros H. invert_OutOfFuel;
    match goal with
    | H : yy_datatype _ = OutOfFuel |- _ => now apply yy_datatype_fuel in H
    end.
Qed.

Ltac lengths :=
  repeat match goal with
  | H : parse_exp _ = Ok _ _ |- _ => apply parse_exp_Ok in H
  | H : parse_callArgs _ = Ok _ _ |- _ => apply parse_callArgs_Ok in H
  | H : yy_type _ = Ok _ _ |- _ => apply yy_type_Ok in H
  | H : lift _ _ = Ok _ _ |- _ =>
      unfold lift in H;
      match type of H with
      | match ?r with _ => _ end = _ =>
          destruct r; [discriminate H | injection H as _ H]
      end
  end.

Ltac no_fuel_leaf :=
  match goal with
  | H : parse_exp _ = OutOfFuel |- _ => now apply parse_exp_fuel in H
  | H : parse_callArgs _ = OutOfFuel |- _ =>
      now apply parse_callArgs_fuel in H
  | H : yy_type _ = OutOfFuel |- _ => now apply yy_type_fuel in H
  end.

Lemma yy_varDecl_rest_Ok id colon toks v rest :
  yy_varDecl_rest id colon toks = Ok v rest -> length rest < length toks.
Proof.
  unfold yy_varDecl_rest. intros H. invert_Ok; lengths; subst; lia.
Qed.

Lemma yy_varDecl_rest_fuel id colon toks :
  yy_varDecl_rest id colon toks <> OutOfFuel.
Proof.
  unfold yy_varDecl_rest. intros H. invert_OutOfFuel; no_fuel_leaf.
Qed.

Lemma yy_stmt_Ok toks v rest :
  yy_stmt toks = Ok v rest -> length rest < length toks.
Proof.
  unfold yy_stmt. intros H. invert_Ok; lengths;
    repeat match goal with
    | H : yy_varDecl_rest _ _ _ = Ok _ _ |- _ =>
        apply yy_varDecl_rest_Ok in H
    end; subst; lia.
Qed.

Lemma yy_stmt_fuel toks : yy_stmt toks <> OutOfFuel.
Proof.
  unfold yy_stmt. intros H. invert_OutOfFuel;
    first [ no_fuel_leaf
          | match goal with
            | H : yy_varDecl_rest _ _ _ = OutOfFuel |- _ =>
                now apply yy_varDecl_rest_fuel in H
            end ].
Qed.

Lemma yy_stmtList_Ok (fuel : nat) : forall toks v rest,
  yy_stmtList fuel toks = Ok v rest -> length rest <= length toks.
Proof.
  induction fuel as [|fuel IH]; intros toks v rest H; [discriminate|].
  cbn [yy_stmtList] in H.
  invert_Ok; lengths;
    repeat match goal with
    | H : yy_stmt _ = Ok _ _ |- _ => apply yy_stmt_Ok in H
    | H : yy_stmtList fuel _ = Ok _ _ |- _ => apply IH in H
    end; subst; lia.
Qed.

Lemma yy_stmtList_fuel (fuel : nat) : forall toks,
  length toks < fuel -> yy_stmtList fuel toks <> OutOfFuel.
Proof.
  induction fuel as [|fuel IH]; intros toks Hf H; [lia|].
  cbn [yy_stmtList] in H.
  invert_OutOfFuel; invert_Ok; lengths;
    repeat match goal with
    | H : yy_stmt _ = Ok _ _ |- _ => apply yy_stmt_Ok in H
    | H : yy_stmtList fuel _ = Ok _ _ |- _ => apply yy_stmtList_Ok in H
    end;
    first [ no_fuel_leaf
          | match goal with
            | H : yy_stmt _ = OutOfFuel |- _ => now apply yy_stmt_fuel in H
            | H : yy_stmtList fuel _ = OutOfFuel |- _ =>
                apply IH in H; [exact H | subst; lia]
            end ].
Qed.

Lemma parse_stmtList_Ok toks v rest :
  parse_stmtList toks = Ok v rest -> length rest <= length toks.
Proof. apply yy_stmtList_Ok. Qed.

Lemma parse_stmtList_fuel toks : parse_stmtList toks <> OutOfFuel.
Proof. apply yy_stmtList_fuel. lia. Qed.

Lemma yy_formalList_Ok (fuel : nat) : forall toks v rest,
  yy_formalList fuel toks = Ok v rest -> length rest < length toks.
Proof.
  induction fuel as [|fuel IH]; intros toks v rest H; [discriminate|].
  cbn [yy_formalList] in H.
  invert_Ok; lengths;
    repeat match goal with
    | H : yy_formalList fuel _ = Ok _ _ |- _ => apply IH in H
    end; subst; lia.
Qed.

Lemma yy_formalList_fuel (fuel : nat) : forall toks,
  length toks < fuel -> yy_formalList fuel toks <> OutOfFuel.
Proof.
  induction fuel as [|fuel IH]; intros toks Hf H; [lia|].
  cbn [yy_formalList] in H.
  invert_OutOfFuel; invert_Ok; lengths;
    first [ no_fuel_leaf
          | match goal with
            | H : yy_formalList fuel _ = OutOfFuel |- _ =>
                apply IH in H; [exact H | subst; lia]
            end ].
Qed.

Lemma yy_fnDecl_rest_Ok toks v rest :
  yy_fnDecl_rest toks = Ok v rest -> length rest < length toks.
Proof.
  unfold yy_fnDecl_rest, yy_maybeFormals. intros H. invert_Ok; lengths;
    repeat match goal with
    | H : yy_formalList _ _ = Ok _ _ |- _ => apply yy_formalList_Ok in H
    | H : parse_stmtList _ = Ok _ _ |- _ => apply parse_stmtList_Ok in H
    end; subst; lia.
Qed.

Lemma yy_fnDecl_rest_fuel toks : yy_fnDecl_rest toks <> OutOfFuel.
Proof.
  unfold yy_fnDecl_rest, yy_maybeFormals. intros H. invert_OutOfFuel;
    first [ no_fuel_leaf
          | match goal with
            | H : yy_formalList _ _ = OutOfFuel |- _ =>
                apply yy_formalList_fuel in H; [exact H | lia]
            | H : parse_stmtList _ = OutOfFuel |- _ =>
                now apply parse_stmtList_fuel in H
            end ].
Qed.

Ltac decl_lengths :=
  repeat match goal with
  | H : yy_varDecl_rest _ _ _ = Ok _ _ |- _ => apply yy_varDecl_rest_Ok in H
  | H : yy_fnDecl_rest _ = Ok _ _ |- _ => apply yy_fnDecl_rest_Ok in H
  end.

Ltac no_fuel_decl :=
  match goal with
  | H : yy_varDecl_rest _ _ _ = OutOfFuel |- _ =>
      now apply yy_varDecl_rest_fuel in H
  | H : yy_fnDecl_rest _ = OutOfFuel |- _ =>
      now apply yy_fnDecl_rest_fuel in H
  end.

Lemma yy_classBody_Ok (fuel : nat) : forall toks v rest,
  yy_classBody fuel toks = Ok v rest -> length rest <= length toks.
Proof.
  induction fuel as [|fuel IH]; intros toks v rest H; [discriminate|].
  cbn [yy_classBody] in H.
  invert_Ok; lengths; decl_lengths;
    repeat match goal with
    | H : yy_classBody fuel _ = Ok _ _ |- _ => apply IH in H
    end; subst; lia.
Qed.

Lemma yy_classBody_fuel (fuel : nat) : forall toks,
  length toks < fuel -> yy_classBody fuel toks <> OutOfFuel.
Proof.
  induction fuel as [|fuel IH]; intros toks Hf H; [lia|].
  cbn [yy_classBody] in H.
  invert_OutOfFuel; invert_Ok; lengths; decl_lengths;
    first [ no_fuel_leaf | no_fuel_decl
          | match goal with
            | H : yy_classBody fuel _ = OutOfFuel |- _ =>
                apply IH in H; [exact H | subst; lia]
            end ].
Qed.

Lemma yy_classTypeDecl_rest_Ok toks v rest :
  yy_classTypeDecl_rest toks = Ok v rest -> length rest < length toks.
Proof.
  unfold yy_classTypeDecl_rest. intros H. invert_Ok;
    repeat match goal with
    | H : yy_classBody _ _ = Ok _ _ |- _ => apply yy_classBody_Ok in H
    end; subst; lia.
Qed.

Lemma yy_classTypeDecl_rest_fuel toks :
  yy_classTypeDecl_rest toks <> OutOfFuel.
Proof.
  unfold yy_classTypeDecl_rest. intros H. invert_OutOfFuel.
  match goal with
  | H : yy_classBody _ _ = OutOfFuel |- _ =>
      apply yy_classBody_fuel in H; [exact H | lia]
  end.
Qed.

Lemma yy_decl_Ok toks v rest :
  yy_decl toks = Ok v rest -> length rest < length toks.
Proof.
  unfold yy_decl. intros H. invert_Ok; lengths; decl_lengths;
    repeat match goal with
    | H : yy_classTypeDecl_rest _ = Ok _ _ |- _ =>
        apply yy_classTypeDecl_rest_Ok in H
    end; subst; lia.
Qed.

Lemma yy_decl_fuel toks : yy_decl toks <> OutOfFuel.
Proof.
  unfold yy_decl. intros H. invert_OutOfFuel;
    first [ no_fuel_decl
          | match goal with
            | H : yy_classTypeDecl_rest _ = OutOfFuel |- _ =>
                now apply yy_classTypeDecl_rest_fuel in H
            end ].
Qed.

Lemma yy_globals_fuel (fuel : nat) : forall toks globals,
  length toks < fuel -> yy_globals fuel globals toks <> OutOfFuel.
Proof.
  induction fuel as [|fuel IH]; intros toks globals Hf H; [lia|].
  cbn [yy_globals] in H.
  invert_OutOfFuel;
    repeat match goal with
    | H : yy_decl _ = Ok _ _ |- _ => apply yy_decl_Ok in H
    end;
    match goal with
    | H : yy_decl _ = OutOfFuel |- _ => now apply yy_decl_fuel in H
    | H : yy_globals fuel _ _ = OutOfFuel |- _ =>
        apply IH in H; [exact H | lia]
    end.
Qed.

(** The model of the parser always reaches one of its three real
    results. *)
Lemma yy_program_fuel toks : yy_program toks <> OutOfFuel.
Proof.
  unfold yy_program. intros H. invert_OutOfFuel.
  match goal with
  | H : yy_globals _ _ _ = OutOfFuel |- _ =>
      apply yy_globals_fuel in H; [exact H | lia]
  end.
Qed.

(** ** Reading from the front *)

Import Fragment.

Lemma reads_front_ret {A : Type} (a : A) : reads_front (ret a).
Proof. intros toks. now exists []. Qed.

Lemma reads_front_syntax_error {A : Type} : reads_front (@syntax_error A).
Proof. intros toks. now exists []. Qed.

Lemma reads_front_out_of_fuel {A : Type} : reads_front (@out_of_fuel A).
Proof. intros toks. exact I. Qed.

Lemma reads_front_lift {A : Type} (r : Fault + A) : reads_front (lift r).
Proof. intros toks. unfold lift. destruct r; [exact I | now exists []]. Qed.

Lemma reads_front_peek : reads_front peek.
Proof. intros toks. now exists []. Qed.

Lemma reads_front_expect k : reads_front (expect k).
Proof.
  intros [|t rest]; cbn [expect]; [now exists []|].
  destruct (symbol_kind_beq k (kind t)); [now exists [t] | now exists []].
Qed.

Lemma reads_front_bind {A B : Type} (m : M A) (k : A -> M B) :
  reads_front m -> (forall a, reads_front (k a)) -> reads_front (bind m k).
Proof.
  intros Hm Hk toks. unfold bind. specialize (Hm toks).
  destruct (m toks) as [a mid|mid| |]; try exact Hm.
  destruct Hm as [r1 ->]. specialize (Hk a mid).
  destruct (k a mid) as [b rest|rest| |]; try exact I;
    destruct Hk as [r2 ->]; exists (r1 ++ r2); now rewrite app_assoc.
Qed.

Lemma reads_front_at {A : Type} (f : list Token -> M A) :
  (forall x, reads_front (f x)) -> reads_front (fun toks => f toks toks).
Proof. intros H toks. exact (H toks toks). Qed.

Create HintDb front.

#[local] Hint Resolve reads_front_ret reads_front_syntax_error
  reads_front_out_of_fuel reads_front_lift reads_front_peek
  reads_front_expect : front.

(** Take a parser apart along its binds and its case distinctions. *)
Ltac take_apart :=
  repeat first
    [ solve [auto 2 with front]
    | apply reads_front_bind; [|intros ?]
    | match goal with
      | |- reads_front (if ?c then _ else _) => destruct c
      | |- reads_front (match ?x with _ => _ end) => destruct x
      end ].

Lemma reads_front_name : reads_front yy_name.
Proof. unfold yy_name. take_apart. Qed.

Lemma reads_front_loc_rest (n : nat) : forall toks cur,
  length toks <= n ->
  match yy_loc_rest cur toks with
  | Ok _ rest | SyntaxErr rest => exists read, toks = read ++ rest
  | _ => True
  end.
Proof.
  induction n as [|n IH]; intros [|a toks] cur Hn; simpl in Hn;
    try lia; cbn [yy_loc_rest]; try (now exists []).
  destruct (symbol_kind_beq S_ARROW (kind a)); [|now exists []].
  destruct toks as [|i toks]; [now exists [a]|].
  destruct (symbol_kind_beq S_ID (kind i)); [|now exists [a]].
  specialize (IH toks None). simpl in Hn.
  destruct (yy_loc_rest None toks) as [v rest|rest| |]; try exact I;
    (destruct IH as [read ->]; [lia|]; now exists (a :: i :: read)).
Qed.

Lemma reads_front_yy_loc_rest cur : reads_front (yy_loc_rest cur).
Proof. intros toks. now apply (reads_front_loc_rest (length toks)). Qed.

#[local] Hint Resolve reads_front_name reads_front_yy_loc_rest : front.

Lemma reads_front_loc : reads_front yy_loc.
Proof. unfold yy_loc. take_apart. Qed.

Lemma reads_front_primType : reads_front yy_primType.
Proof.
  intros [|t rest]; cbn [yy_primType]; [now exists []|].
  destruct (kind t); first [now exists [t] | now exists []].
Qed.

#[local] Hint Resolve reads_front_loc reads_front_primType : front.

Lemma reads_front_datatype : reads_front yy_datatype.
Proof. unfold yy_datatype. take_apart. Qed.

#[local] Hint Resolve reads_front_datatype : front.

Lemma reads_front_type : reads_front yy_type.
Proof. unfold yy_type. take_apart. Qed.

#[local] Hint Resolve reads_front_type : front.

Lemma reads_front_expressions (fuel : nat) :
  (forall stack done, reads_front (yy_exp fuel stack done)) /\
  (forall stack done, reads_front (yy_operator fuel stack done)) /\
  (forall done, reads_front (yy_term fuel done)) /\
  (forall done, reads_front (yy_actualList fuel done)).
Proof.
  induction fuel as [|fuel (IHe & IHo & IHt & IHa)];
    [repeat split; intros; apply reads_front_out_of_fuel|].
  repeat split; intros;
    cbn [yy_exp yy_operator yy_term yy_actualList]; take_apart.
Qed.

Lemma reads_front_parse_exp : reads_front parse_exp.
Proof.
  apply (reads_front_at (fun x => yy_exp (exp_fuel x) [] [])).
  intros x. apply reads_front_expressions.
Qed.

Lemma reads_front_actuals :
  reads_front (fun toks => yy_actualList (exp_fuel toks) [] toks).
Proof.
  apply (reads_front_at (fun x => yy_actualList (exp_fuel x) [])).
  intros x. apply reads_front_expressions.
Qed.

#[local] Hint Resolve reads_front_parse_exp reads_front_actuals : front.

Lemma reads_front_callArgs : reads_front parse_callArgs.
Proof. unfold parse_callArgs. take_apart. Qed.

Lemma reads_front_varDecl_rest id colon :
  reads_front (yy_varDecl_rest id colon).
Proof. unfold yy_varDecl_rest. take_apart. Qed.

#[local] Hint Resolve reads_front_callArgs reads_front_varDecl_rest : front.

Lemma reads_front_stmt : reads_front yy_stmt.
Proof. unfold yy_stmt. take_apart. Qed.

#[local] Hint Resolve reads_front_stmt : front.

Lemma reads_front_stmtList (fuel : nat) : reads_front (yy_stmtList fuel).
Proof.
  induction fuel as [|fuel IH]; [apply reads_front_out_of_fuel|].
  cbn [yy_stmtList]. take_apart.
Qed.

Lemma reads_front_parse_stmtList : reads_front parse_stmtList.
Proof.
  apply (reads_front_at (fun x => yy_stmtList (S (length x)))).
  intros x. apply reads_front_stmtList.
Qed.

#[local] Hint Resolve reads_front_parse_stmtList : front.

Lemma reads_front_formalList (fuel : nat) : reads_front (yy_formalList fuel).
Proof.
  induction fuel as [|fuel IH]; [apply reads_front_out_of_fuel|].
  cbn [yy_formalList]. take_apart.
Qed.

Lemma reads_front_fnDecl_rest : reads_front yy_fnDecl_rest.
Proof.
  unfold yy_fnDecl_rest, yy_maybeFormals. take_apart.
  apply (reads_front_at (fun x => yy_formalList (S (length x)))).
  intros x. apply reads_front_formalList.
Qed.

#[local] Hint Resolve reads_front_fnDecl_rest : front.

Lemma reads_front_classBody (fuel : nat) : reads_front (yy_classBody fuel).
Proof.
  induction fuel as [|fuel IH]; [apply reads_front_out_of_fuel|].
  cbn [yy_classBody]. take_apart.
Qed.

Lemma reads_front_decl : reads_front yy_decl.
Proof.
  unfold yy_decl, yy_classTypeDecl_rest. take_apart.
  apply (reads_front_at (fun x => yy_classBody (S (length x)))).
  intros x. apply reads_front_classBody.
Qed.

#[local] Hint Resolve reads_front_decl : front.

Lemma reads_front_globals (fuel : nat) : forall globals,
  reads_front (yy_globals fuel globals).
Proof.
  induction fuel as [|fuel IH]; intros globals;
    [apply reads_front_out_of_fuel|].
  cbn [yy_globals]. take_apart.
Qed.

Lemma reads_front_program : reads_front yy_program.
Proof.
  unfold yy_program. apply reads_front_bind; [|intros; apply reads_front_lift].
  apply (reads_front_at (fun x => yy_globals (S (length x)) [])).
  intros x. apply reads_front_globals.
Qed.

End ParserFacts.

Module ProgramFacts.

Import Parser Inputs ParserFacts.

Local Open Scope nat_scope.
Local Open Scope list_scope.

Local Abbreviation length := List.length.

(** ** Single steps of the expression parser *)

Lemma beq_refl (k : symbol_kind) : symbol_kind_beq k k = true.
Proof. now apply internal_symbol_kind_dec_lb. Qed.

Lemma yy_term_atom fuel done a rest :
  atom (kind a) = true -> ends_operand rest = true ->
  yy_term (S fuel) done (a :: rest) = Ok done rest.
Proof.
  intros Ha He. cbn [yy_term]. rewrite peek_eq. cbn [hd_error option_map].
  destruct (kind a) eqn:Ka; try discriminate Ha;
    try (unfold bind; rewrite <- Ka, expect_same; reflexivity).
  unfold yy_loc, yy_name, bind. rewrite <- Ka, expect_same. unfold ret.
  destruct rest as [|t rest']; [reflexivity|].
  cbn [ends_operand] in He. apply andb_prop in He. destruct He as [H1 H2].
  apply negb_true_iff in H1, H2.
  cbn [yy_loc_rest]. rewrite H1.
  unfold peek. cbn [hd_error option_map is_kind]. now rewrite H2.
Qed.

Lemma yy_exp_atom fuel stack done a rest :
  atom (kind a) = true -> ends_operand rest = true ->
  yy_exp (S (S fuel)) stack done (a :: rest) =
    yy_operator (S fuel) stack (done ++ [exp_term]) rest.
Proof.
  intros Ha He. cbn [yy_exp]. rewrite peek_eq. cbn [hd_error option_map].
  assert (is_kind S_NOT (Some (kind a)) = false) as ->
    by (destruct (kind a); try discriminate Ha; reflexivity).
  assert (is_kind S_DASH (Some (kind a)) = false) as ->
    by (destruct (kind a); try discriminate Ha; reflexivity).
  unfold bind at 1. now rewrite yy_term_atom.
Qed.

Lemma yy_exp_NOT fuel stack done t rest :
  kind t = S_NOT ->
  yy_exp (S fuel) stack done (t :: rest) =
    yy_exp fuel (S_NOT :: stack) done rest.
Proof.
  intros Ht. cbn [yy_exp]. rewrite peek_eq. cbn [hd_error option_map].
  rewrite Ht. cbn [is_kind]. rewrite beq_refl.
  unfold bind. now rewrite <- Ht, expect_same.
Qed.

Lemma yy_operator_start fuel done op rest :
  binary_operator (kind op) = true ->
  yy_operator (S fuel) [] done (op :: rest) = yy_exp fuel [kind op] done rest.
Proof.
  intros Hop. cbn [yy_operator]. rewrite peek_eq. cbn [hd_error option_map].
  rewrite Hop. unfold bind. now rewrite expect_same.
Qed.

Lemma yy_operator_resolve fuel top below done op rest :
  binary_operator (kind op) = true ->
  yy_operator (S fuel) (top :: below) done (op :: rest) =
    match resolve (level top) (kind op) with
    | DoReduce => yy_operator fuel below (done ++ [rule_of top]) (op :: rest)
    | DoShift => yy_exp fuel (kind op :: top :: below) done rest
    | DoError => SyntaxErr (op :: rest)
    end.
Proof.
  intros Hop. cbn [yy_operator]. rewrite peek_eq. cbn [hd_error option_map].
  rewrite Hop. destruct (resolve (level top) (kind op)); try reflexivity.
  unfold bind. now rewrite expect_same.
Qed.

Lemma yy_operator_end fuel stack done :
  yy_operator (S fuel) stack done [] = Ok (done ++ map rule_of stack) [].
Proof. reflexivity. Qed.

Lemma relational_binary k : relational k = true -> binary_operator k = true.
Proof. destruct k; try discriminate; reflexivity. Qed.

Lemma relational_precedence k :
  relational k = true -> precedence k = Some (4, NonAssoc).
Proof. destruct k; try discriminate; reflexivity. Qed.

Lemma relational_ends_operand t rest :
  relational (kind t) = true -> ends_operand (t :: rest) = true.
Proof.
  intros H. cbn [ends_operand]. destruct (kind t); try discriminate H;
    reflexivity.
Qed.

(** Whenever an expression is complete, the nearest pending operator that
    a relational lookahead does not outrank is itself relational, and the
    lookahead is relational, the parser stops with a syntax error. *)
Lemma pending_relational_rejects hi : forall fuel op1 below done op2 rest,
  Forall (fun k => level op1 < level k) hi ->
  relational op1 = true -> relational (kind op2) = true ->
  length hi < fuel ->
  yy_operator fuel (hi ++ op1 :: below) done (op2 :: rest) =
    SyntaxErr (op2 :: rest).
Proof.
  induction hi as [|top hi IH]; intros fuel op1 below done op2 rest Hhi H1 H2 Hf;
    (destruct fuel as [|fuel]; [simpl in Hf; lia|]); cbn [app].
  - rewrite yy_operator_resolve by now apply relational_binary.
    unfold resolve, level.
    rewrite (relational_precedence _ H1), (relational_precedence _ H2).
    reflexivity.
  - rewrite yy_operator_resolve by now apply relational_binary.
    inversion Hhi as [|? ? Htop Hrest]; subst.
    unfold resolve. rewrite (relational_precedence _ H2).
    assert (level op1 = 4) as E
      by (unfold level; now rewrite (relational_precedence _ H1)).
    rewrite E in Htop. apply Nat.ltb_lt in Htop. rewrite Htop.
    apply IH; try assumption. simpl in Hf. lia.
Qed.

Lemma parse_exp_chain a op1 b op2 rest :
  atom (kind a) = true -> relational (kind op1) = true ->
  atom (kind b) = true -> relational (kind op2) = true ->
  parse_exp (a :: op1 :: b :: op2 :: rest) = SyntaxErr (op2 :: rest).
Proof.
  intros Ha H1 Hb H2. unfold parse_exp.
  replace (exp_fuel (a :: op1 :: b :: op2 :: rest))
    with (S (S (S (S (S (2 * length rest + 6))))))
    by (unfold exp_fuel; simpl; lia).
  rewrite yy_exp_atom by (try apply relational_ends_operand; assumption).
  rewrite yy_operator_start by now apply relational_binary.
  rewrite yy_exp_atom by (try apply relational_ends_operand; assumption).
  apply (pending_relational_rejects []); try assumption.
  - constructor.
  - simpl. lia.
Qed.

(** With single-token operands [a], [b], [c]: in [a + b * c] the product
    is reduced before the sum, and in [!a * b] the negation before the
    product. *)
Lemma product_reduced_before_sum a p1 b p2 c :
  atom (kind a) = true -> atom (kind b) = true -> atom (kind c) = true ->
  parse_exp [a; CROSS p1; b; STAR p2; c] =
    Ok [exp_term; exp_term; exp_term; exp_binary S_STAR; exp_binary S_CROSS]
      [].
Proof.
  intros Ha Hb Hc. unfold parse_exp, exp_fuel. cbn [List.length Nat.mul Nat.add].
  rewrite yy_exp_atom by (assumption || reflexivity).
  rewrite yy_operator_start by reflexivity.
  rewrite yy_exp_atom by (assumption || reflexivity).
  rewrite yy_operator_resolve by reflexivity.
  cbn [resolve level precedence kind Nat.ltb Nat.leb].
  rewrite yy_exp_atom by (assumption || reflexivity).
  reflexivity.
Qed.

Lemma negation_reduced_before_product p0 a p1 b :
  atom (kind a) = true -> atom (kind b) = true ->
  parse_exp [NOT p0; a; STAR p1; b] =
    Ok [exp_term; exp_NOT; exp_term; exp_binary S_STAR] [].
Proof.
  intros Ha Hb. unfold parse_exp, exp_fuel. cbn [List.length Nat.mul Nat.add].
  rewrite yy_exp_NOT by reflexivity.
  rewrite yy_exp_atom by (assumption || reflexivity).
  rewrite yy_operator_resolve by reflexivity.
  cbn [resolve level precedence kind Nat.ltb Nat.leb].
  rewrite yy_operator_start by reflexivity.
  rewrite yy_exp_atom by (assumption || reflexivity).
  reflexivity.
Qed.

(** ** Whole programs *)

Lemma consumed_app (pre rest : list Token) : consumed (pre ++ rest) rest = pre.
Proof.
  unfold consumed. rewrite length_app.
  replace (length pre + length rest - length rest) with (length pre) by lia.
  induction pre as [|t pre IH]; simpl.
  - now destruct rest.
  - now rewrite IH.
Qed.

Lemma yy_decl_initializer px x pc pt pa etoks :
  yy_decl (ID px x :: COLON pc :: INT pt :: ASSIGN pa :: etoks) =
    (parse_exp ;;; expect S_SEMICOL ;;; ret None) etoks.
Proof.
  cbv -[parse_exp].
  destruct (parse_exp etoks) as [r rest| | |]; reflexivity.
Qed.

Lemma yy_globals_first_fails fuel toks rest :
  kind_of_head toks = Some S_ID ->
  yy_decl toks = SyntaxErr rest ->
  yy_globals (S fuel) [] toks = SyntaxErr rest.
Proof.
  intros Hk Hd. cbn [yy_globals]. rewrite peek_eq.
  unfold kind_of_head in Hk. rewrite Hk. cbn [is_kind]. rewrite beq_refl.
  unfold bind. now rewrite Hd.
Qed.

(** C3. The relational and equality operators do not chain.  In the
    expression parser: once an operand is complete, if the pending
    operators above a relational operator [op1] all bind tighter than it,
    a relational lookahead [op2] is a syntax error.  In a program: a
    declaration whose initializer starts [a op1 b op2], with [a] and [b]
    single-token operands and [op1], [op2] any two of the six operators,
    makes [parse] report the error at [op2], return 1 and leave the root
    as it was, whatever follows. *)
Theorem relational_chain_is_syntax_error :
  (forall fuel hi op1 below done op2 rest,
     Forall (fun k => level op1 < level k) hi ->
     relational op1 = true -> relational (kind op2) = true ->
     length hi < fuel ->
     yy_operator fuel (hi ++ op1 :: below) done (op2 :: rest) =
       SyntaxErr (op2 :: rest)) /\
  (forall msg px x pc pt pa a op1 b op2 rest root0,
     atom (kind a) = true -> relational (kind op1) = true ->
     atom (kind b) = true -> relational (kind op2) = true ->
     parse msg
       (ID px x :: COLON pc :: INT pt :: ASSIGN pa
          :: a :: op1 :: b :: op2 :: rest) root0 =
       mkRun (Returned 1) root0
         (msg [ID px x; COLON pc; INT pt; ASSIGN pa; a; op1; b] (Some op2)
            ++ nl)%string
         ("syntax error" ++ nl)%string).
Proof.
  split.
  - intros. now apply pending_relational_rejects.
  - intros msg px x pc pt pa a op1 b op2 rest root0 Ha H1 Hb H2.
    unfold parse, yy_program. unfold bind at 1.
    rewrite (yy_globals_first_fails _ _ (op2 :: rest)).
    + unfold error. cbn [outcome root cout cerr hd_error].
      change (ID px x :: COLON pc :: INT pt :: ASSIGN pa
                :: a :: op1 :: b :: op2 :: rest)
        with ([ID px x; COLON pc; INT pt; ASSIGN pa; a; op1; b]
                ++ op2 :: rest).
      now rewrite consumed_app.
    + reflexivity.
    + rewrite yy_decl_initializer. unfold bind at 1.
      now rewrite parse_exp_chain.
Qed.

Lemma relational_chain_is_syntax_error_witness :
  parse some_message (x_int_init ++ a_less_b_less_c) None =
    mkRun (Returned 1) None
      ("syntax error, unexpected token" ++ nl)%string
      ("syntax error" ++ nl)%string.
Proof.
  exact (proj2 relational_chain_is_syntax_error some_message
           (at_cols 1 2) "x"%string (at_cols 2 3) (at_cols 4 7) (at_cols 8 9)
           (ID (at_cols 11 12) "a") (LESS (at_cols 13 14))
           (ID (at_cols 15 16) "b") (LESS (at_cols 17 18))
           [ID (at_cols 19 20) "c"] None
           eq_refl eq_refl eq_refl eq_refl).
Defined.

(** ** The program node *)

Lemma last_default {A : Type} (x : A) (l : list A) (d d' : A) :
  last (x :: l) d = last (x :: l) d'.
Proof.
  revert x. induction l as [|y l IH]; intros x; [reflexivity|].
  change (last (y :: l) d = last (y :: l) d'). apply IH.
Qed.

Lemma ProgramNode_ctor_inr globals prog :
  ProgramNode_ctor globals = inr prog ->
  myGlobals prog = globals /\
  (globals = [] -> prog_pos prog = mkPosition 0 0 0 0) /\
  (globals <> [] ->
   exists first final,
     hd_error globals = Some (Some first) /\
     last globals None = Some final /\
     prog_pos prog =
       Position_merge (DeclNode_pos first) (DeclNode_pos final)).
Proof.
  unfold ProgramNode_ctor. destruct globals as [|front tl].
  - intros H. injection H as <-. repeat split. intros H. now destruct H.
  - destruct front as [f|]; [|discriminate].
    destruct (last (Some f :: tl) (Some f)) as [b|] eqn:E; [|discriminate].
    intros H. injection H as <-. repeat split; [discriminate|].
    intros _. exists f, b. repeat split.
    now rewrite (last_default _ _ None (Some f)).
Qed.

Lemma parse_success msg toks root0 prog :
  parse msg toks root0 = mkRun (Returned 0) (Some prog) "" "" ->
  exists globals, ProgramNode_ctor globals = inr prog.
Proof.
  unfold parse, yy_program.
  destruct (bind _ _ toks) as [p [|t rest]| | |] eqn:E; try discriminate.
  intros H. injection H as ->.
  apply bind_Ok in E. destruct E as (globals & mid & _ & E).
  exists globals. unfold lift in E.
  destruct (ProgramNode_ctor globals); [discriminate|].
  now injection E as ->.
Qed.

(** C6. The empty token stream parses, with status 0, to a program node
    with no declarations and position (0,0,0,0); and every program node
    that [parse] delivers has that position when its declaration list is
    empty, and otherwise the span from the position of its first
    declaration to that of its last. *)
Theorem program_position msg root0 :
  parse msg [] root0 =
    mkRun (Returned 0) (Some (mkProgramNode (mkPosition 0 0 0 0) [])) "" "" /\
  forall toks prog,
    parse msg toks root0 = mkRun (Returned 0) (Some prog) "" "" ->
    (myGlobals prog = [] -> prog_pos prog = mkPosition 0 0 0 0) /\
    (myGlobals prog <> [] ->
     exists first final,
       hd_error (myGlobals prog) = Some (Some first) /\
       last (myGlobals prog) None = Some final /\
       prog_pos prog =
         Position_merge (DeclNode_pos first) (DeclNode_pos final)).
Proof.
  split; [reflexivity|].
  intros toks prog H. apply parse_success in H. destruct H as (globals & H).
  apply ProgramNode_ctor_inr in H. destruct H as (-> & H0 & H1).
  now split.
Qed.

Lemma program_position_witness :
  exists prog,
    parse some_message (x_int ++ y_bool) None =
      mkRun (Returned 0) (Some prog) "" "" /\
    prog_pos prog = mkPosition 1 1 1 11.
Proof.
  eexists. split; [reflexivity|].
  destruct (proj2 (program_position some_message None) (x_int ++ y_bool) _
              eq_refl) as [_ H].
  destruct (H ltac:(discriminate)) as (first & final & H1 & H2 & H3).
  injection H1 as <-. injection H2 as <-. exact H3.
Defined.

(** ** Actions that build nothing *)

(** C4. The text [x: int;] parses to the declaration of [x] at type
    [int] with no initializer.  The text [x: int = 5;] is accepted by the
    grammar, but the action of [varDecl : name COLON type ASSIGN exp] is
    empty: the declaration's translation is null, no literal node is
    built, and the program constructor dereferences the null pointer. *)
Theorem initializer_production_builds_no_node msg root0 :
  parse msg x_int root0 =
    mkRun (Returned 0)
      (Some (mkProgramNode (at_cols 1 3) [Some (VarDecl (x_int_node None))]))
      "" "" /\
  yy_decl x_int_5 = Ok None [] /\
  parse msg x_int_5 root0 = mkRun (Died NullDereference) root0 "" "".
Proof. repeat split. Qed.

(** C5. The action of [varDecl : name COLON type] spans the node from the
    name to the colon: for [x: int;] the node ends at column 3, where the
    colon ends, while the type ends at column 7. *)
Theorem var_decl_position_stops_at_colon :
  (forall px x pc pt ps rest,
     yy_decl (ID px x :: COLON pc :: INT pt :: SEMICOL ps :: rest) =
       Ok (Some (VarDecl (mkVarDeclNode (Position_merge px pc)
                            (mkIDNode px x) (IntTypeNode pt) None))) rest) /\
  yy_decl x_int = Ok (Some (VarDecl (x_int_node None))) [] /\
  vd_pos (x_int_node None) = mkPosition 1 1 1 3 /\
  Position_merge (id_pos (myID (x_int_node None)))
    (TypeNode_pos (myType (x_int_node None))) = mkPosition 1 1 1 7.
Proof. repeat split. Qed.

(** C2. The precedence lines make the parser reduce [3 * 4] before the
    sum in [2 + 3 * 4], and the negation before the product in [!a * b];
    but the actions of the [exp] and [term] productions are empty, so no
    Plus, Times, Not or literal node exists: a declaration initialized
    with [2 + 3 * 4] has a null translation. *)
Theorem precedence_reduces_but_builds_no_node msg root0 :
  parse_exp two_plus_three_times_four =
    Ok [exp_term; exp_term; exp_term; exp_binary S_STAR; exp_binary S_CROSS]
      [] /\
  parse_exp not_a_times_b =
    Ok [exp_term; exp_NOT; exp_term; exp_binary S_STAR] [] /\
  yy_decl (x_int_init ++ two_plus_three_times_four
             ++ [SEMICOL (at_cols 20 21)]) = Ok None [] /\
  parse msg (x_int_init ++ two_plus_three_times_four
               ++ [SEMICOL (at_cols 20 21)]) root0 =
    mkRun (Died NullDereference) root0 "" "".
Proof. repeat split. Qed.

(** C1. The program [x: int = 5;] is syntactically valid, but parsing it
    yields no tree to render; and had the declaration node been built
    with its initializer, its rendering would be that of the
    declaration without one, so the second parse could not give the
    initializer back. *)
Theorem round_trip_loses_initializer msg root0 :
  parse msg x_int_5 root0 = mkRun (Died NullDereference) root0 "" "" /\
  Unparse.VarDeclNode_unparse
    (x_int_node (Some (IntLitNode (at_cols 10 11) 5))) 0 =
    ("x: int;" ++ nl)%string /\
  Unparse.VarDeclNode_unparse
    (x_int_node (Some (IntLitNode (at_cols 10 11) 5))) 0 =
    Unparse.VarDeclNode_unparse (x_int_node None) 0.
Proof. repeat split. Qed.

End ProgramFacts.

(** * Further properties of the unparser *)

Module LayoutFacts.

Import Unparse Rendering Layout RenderingFacts.

Lemma doIndent_nonpos (indent : Z) : indent <= 0 -> doIndent indent = "".
Proof.
  intros H. unfold doIndent.
  destruct indent as [|p|p]; try reflexivity. lia.
Qed.

Lemma unless_inline_other (indent : Z) (s : string) :
  indent <> -1 -> unless_inline indent s = s.
Proof.
  intros H. unfold unless_inline.
  destruct (Z.eqb_spec indent (-1)); [contradiction | reflexivity].
Qed.

Lemma concat_empty_cons (x : string) (l : list string) :
  String.concat "" (x :: l) = x ++ String.concat "" l.
Proof.
  destruct l as [|y l]; simpl; [now rewrite append_empty_r | reflexivity].
Qed.

(** ** Lists written with separators *)

Lemma unparse_args_rest (f : ExpNode -> Z -> string) (args : list ExpNode) :
  unparse_args f false args =
    String.concat "" (map (fun arg => ", " ++ f arg 0) args).
Proof.
  induction args as [|arg rest IH]; [reflexivity|].
  cbn [unparse_args map]. rewrite concat_empty_cons, IH.
  now rewrite append_assoc.
Qed.

Lemma unparse_args_joined (f : ExpNode -> Z -> string) (args : list ExpNode) :
  unparse_args f true args =
    String.concat ", " (map (fun arg => f arg 0) args).
Proof.
  destruct args as [|arg rest]; [reflexivity|].
  cbn [unparse_args]. change ("" ++ ?x) with x.
  revert arg. induction rest as [|arg' rest IH]; intros arg.
  - cbn [unparse_args map String.concat]. apply append_empty_r.
  - cbn [unparse_args]. rewrite IH. reflexivity.
Qed.

(** X1. A call renders as the callee, an opening parenthesis, the
    arguments (each at level 0) joined by a comma and a space, and a
    closing parenthesis: no separator before the first or after the last
    argument, and none at all for an empty list. *)
Theorem call_arguments_joined (p : Position) (callee : IDNode)
    (args : list ExpNode) (indent : Z) :
  ExpNode_unparse (CallExpNode p callee args) indent =
    doIndent indent ++ name callee ++ "("
      ++ String.concat ", " (map (fun arg => ExpNode_unparse arg 0) args)
      ++ ")".
Proof. now rewrite call_unfold, unparse_args_joined. Qed.

Lemma unparse_formals_joined (formals : list FormalDeclNode) :
  unparse_formals true formals =
    String.concat ", " (map (fun f => FormalDeclNode_unparse f 0) formals).
Proof.
  destruct formals as [|f rest]; [reflexivity|].
  cbn [unparse_formals]. change ("" ++ ?x) with x.
  revert f. induction rest as [|f' rest IH]; intros f.
  - cbn [unparse_formals map String.concat]. apply append_empty_r.
  - cbn [unparse_formals]. rewrite IH. reflexivity.
Qed.

(** X2. A function declaration renders its formals joined by a comma and
    a space between the parentheses of its header, each formal as
    [name : type] without terminator, and its body one level deeper
    between the braces. *)
Theorem function_formals_joined (p : Position) (id : IDNode)
    (formals : list FormalDeclNode) (ret : TypeNode) (body : list StmtNode)
    (indent : Z) :
  DeclNode_unparse (FnDeclNode p id formals ret body) indent =
    doIndent indent ++ name id ++ " : ("
      ++ String.concat ", "
           (map (fun f => name (fd_ID f) ++ " : " ++ TypeNode_unparse (fd_Type f) 0)
              formals)
      ++ ") -> " ++ TypeNode_unparse ret 0 ++ " {" ++ nl
      ++ String.concat "" (map (fun st => StmtNode_unparse st (indent + 1)) body)
      ++ doIndent indent ++ "}" ++ nl.
Proof.
  cbn [DeclNode_unparse]. rewrite unparse_formals_joined. reflexivity.
Qed.

(** ** Indentation *)

Lemma prefix_append (a b : string) : String.prefix a (a ++ b) = true.
Proof.
  induction a as [|c a IH]; simpl; [now destruct b|].
  destruct (ascii_dec c c); [exact IH | contradiction].
Qed.

(** X3. At a level [n >= 0] the rendering of every statement and
    declaration starts with [n] tabs. *)
Theorem statement_starts_with_its_indent (s : StmtNode) (n : nat) :
  String.prefix (tabs n) (StmtNode_unparse s (Z.of_nat n)) = true.
Proof.
  assert (doIndent (Z.of_nat n) = tabs n) as E
    by (unfold doIndent; now rewrite Nat2Z.id).
  destruct s as [| | | | | | | | | | |d];
    cbn [StmtNode_unparse];
    rewrite ?unless_inline_other by lia;
    try (rewrite E; apply prefix_append).
  destruct d as [v|f| |]; cbn [DeclNode_unparse];
    unfold VarDeclNode_unparse, FormalDeclNode_unparse;
    rewrite E; apply prefix_append.
Qed.

Lemma last_char_newline (a : string) :
  last_char (a ++ nl) = Some (ascii_of_nat 10).
Proof.
  induction a as [|c a IH]; [reflexivity|].
  cbn [append last_char]. rewrite IH.
  destruct (a ++ nl) eqn:E; [|reflexivity].
  destruct a; discriminate E.
Qed.

(** X4. Except with the sentinel -1, the rendering of every statement
    and declaration other than a formal ends with a line end. *)
Theorem statement_ends_its_line (s : StmtNode) (indent : Z) :
  indent <> -1 -> is_formal s = false ->
  last_char (StmtNode_unparse s indent) = Some (ascii_of_nat 10).
Proof.
  intros Hi Hf.
  destruct s as [| | | | | | | | | | |d];
    cbn [StmtNode_unparse];
    rewrite ?unless_inline_other by assumption;
    try (rewrite <- !append_assoc; apply last_char_newline).
  destruct d as [v|f| |]; try discriminate Hf; cbn [DeclNode_unparse];
    unfold VarDeclNode_unparse;
    rewrite <- !append_assoc; apply last_char_newline.
Qed.

Lemma statement_ends_its_line_witness :
  last_char (StmtNode_unparse x_becomes_two 3) = Some (ascii_of_nat 10).
Proof.
  apply (statement_ends_its_line x_becomes_two 3); [lia | reflexivity].
Defined.

(** X5. Only -1 is the sentinel: with any indentation below -1 a
    CallStmt, PostInc, PostDec or Maybe statement writes no tabs, its
    core text, and the terminating semicolon and line end. *)
Theorem below_sentinel_terminator_is_written (s : StmtNode) (indent : Z) :
  embeddable s = true -> indent < -1 ->
  StmtNode_unparse s indent = core s ++ ";" ++ nl.
Proof.
  intros Hs Hi.
  destruct s; try discriminate Hs; cbn [StmtNode_unparse core];
    rewrite !unless_inline_other by lia;
    rewrite doIndent_nonpos by lia;
    rewrite ?append_assoc; reflexivity.
Qed.

Lemma below_sentinel_terminator_is_written_witness :
  StmtNode_unparse x_postinc (-2) = "x++;" ++ nl.
Proof.
  apply (below_sentinel_terminator_is_written x_postinc (-2));
    [reflexivity | lia].
Defined.

(** X6. An assignment, return, console statement or variable declaration
    has no inline mode: with -1, or any other indentation that is not
    positive, it renders exactly as at level 0, terminator included. *)
Theorem plain_statement_ignores_sentinel (s : StmtNode) (indent : Z) :
  plain_statement s = true -> indent <= 0 ->
  StmtNode_unparse s indent = StmtNode_unparse s 0.
Proof.
  intros Hs Hi.
  destruct s as [| | | | | | | | | | |d]; try discriminate Hs;
    cbn [StmtNode_unparse];
    try (now rewrite doIndent_nonpos by assumption).
  destruct d; try discriminate Hs. cbn [DeclNode_unparse].
  unfold VarDeclNode_unparse. now rewrite doIndent_nonpos by assumption.
Qed.

Lemma plain_statement_ignores_sentinel_witness :
  StmtNode_unparse x_becomes_two (-1) = "x = 2;" ++ nl.
Proof.
  rewrite (plain_statement_ignores_sentinel x_becomes_two (-1));
    [reflexivity | reflexivity | lia].
Defined.

(** ** Parentheses *)

Lemma paren_balance_app (a b : string) :
  paren_balance (a ++ b) = paren_balance a + paren_balance b.
Proof.
  induction a as [|c a IH]; [reflexivity|].
  cbn [append paren_balance]. rewrite IH. lia.
Qed.

Lemma paren_balance_doIndent (indent : Z) : paren_balance (doIndent indent) = 0.
Proof.
  unfold doIndent. induction (Z.to_nat indent) as [|n IH]; [reflexivity|].
  cbn [tabs]. rewrite paren_balance_app, IH. reflexivity.
Qed.

Lemma paren_balance_uint (d : Decimal.uint) :
  paren_balance (NilEmpty.string_of_uint d) = 0.
Proof. induction d; cbn; try rewrite IHd; reflexivity. Qed.

Lemma paren_balance_nonempty_uint (d : Decimal.uint) :
  paren_balance (NilZero.string_of_uint d) = 0.
Proof.
  unfold NilZero.string_of_uint.
  destruct d; try reflexivity; apply paren_balance_uint.
Qed.

Lemma paren_balance_show_int (n : Z) : paren_balance (show_int n) = 0.
Proof.
  unfold show_int, NilZero.string_of_int.
  destruct (Z.to_int n) as [d|d].
  - apply paren_balance_nonempty_uint.
  - change (String "-" (NilZero.string_of_uint d))
      with ("-" ++ NilZero.string_of_uint d).
    now rewrite paren_balance_app, paren_balance_nonempty_uint.
Qed.

(** Evaluate the balance of the literal texts in the goal. *)
Ltac balance_of_literals :=
  repeat match goal with
  | |- context [paren_balance EmptyString] =>
      change (paren_balance EmptyString) with 0
  | |- context [paren_balance (String ?c ?s)] =>
      let v := eval vm_compute in (paren_balance (String c s)) in
      change (paren_balance (String c s)) with v
  end.

Lemma nested_balance (e : ExpNode) :
  paren_balance (ExpNode_unparse e 0) = text_balance e ->
  paren_balance (ExpNode_unparseNested e) = text_balance e.
Proof.
  intros H. unfold ExpNode_unparseNested, unparseNested_via.
  destruct (overrides_unparseNested e); [exact H|].
  rewrite !paren_balance_app, H. balance_of_literals. lia.
Qed.

Lemma operator_balance (e e1 e2 : ExpNode) (op : string) :
  binary_parts e = Some (op, e1, e2) ->
  paren_balance op = 0 /\ text_balance e = text_balance e1 + text_balance e2.
Proof.
  destruct e; cbn [binary_parts]; try discriminate;
    intros H; injection H as <- <- <-; split; reflexivity.
Qed.

(** X7. The unparser's own parentheses always match: in the rendering of
    any expression, opening minus closing parentheses is what the
    identifiers and string literals of the expression bring in
    themselves, so it is zero when these hold none. *)
Theorem expression_parentheses_match :
  forall (e : ExpNode) (indent : Z),
    paren_balance (ExpNode_unparse e indent) = text_balance e.
Proof.
  fix IH 1. intros e indent.
  destruct (binary_parts e) as [[[op e1] e2]|] eqn:B.
  - rewrite (binary_unfold op e e1 e2 indent B).
    destruct (operator_balance e e1 e2 op B) as [Hop ->].
    rewrite !paren_balance_app, paren_balance_doIndent, Hop.
    rewrite (nested_balance e1), (nested_balance e2).
    + balance_of_literals. lia.
    + destruct e; cbn [binary_parts] in B; try discriminate B;
        injection B as _ _ <-; apply IH.
    + destruct e; cbn [binary_parts] in B; try discriminate B;
        injection B as _ <- _; apply IH.
  - destruct e; try discriminate B.
    + reflexivity.
    + rewrite call_unfold. cbn [text_balance].
      rewrite !paren_balance_app, paren_balance_doIndent.
      assert (forall b,
                paren_balance (unparse_args ExpNode_unparse b myArgs) =
                fold_right (fun arg acc => text_balance arg + acc) 0 myArgs)
        as H.
      { clear B.
        induction myArgs as [|arg rest IHl]; intros b; [reflexivity|].
        cbn [unparse_args fold_right].
        rewrite !paren_balance_app, (IH arg 0), IHl.
        destruct b; cbv iota; balance_of_literals; lia. }
      rewrite H. balance_of_literals. lia.
    + cbn [ExpNode_unparse text_balance].
      now rewrite paren_balance_app, paren_balance_doIndent,
        paren_balance_show_int.
    + cbn [ExpNode_unparse text_balance].
      now rewrite paren_balance_app, paren_balance_doIndent.
    + cbn [ExpNode_unparse text_balance].
      rewrite paren_balance_app, paren_balance_doIndent.
      balance_of_literals. reflexivity.
    + cbn [ExpNode_unparse text_balance].
      rewrite paren_balance_app, paren_balance_doIndent.
      balance_of_literals. reflexivity.
    + cbn [ExpNode_unparse text_balance].
      rewrite paren_balance_app, paren_balance_doIndent.
      balance_of_literals. reflexivity.
    + change (ExpNode_unparse (NegNode p e) indent)
        with (doIndent indent ++ "-" ++ ExpNode_unparseNested e).
      rewrite !paren_balance_app, paren_balance_doIndent, nested_balance
        by apply IH.
      balance_of_literals. cbn [text_balance]. lia.
    + change (ExpNode_unparse (NotNode p e) indent)
        with (doIndent indent ++ "!" ++ ExpNode_unparseNested e).
      rewrite !paren_balance_app, paren_balance_doIndent, nested_balance
        by apply IH.
      balance_of_literals. cbn [text_balance]. lia.
Qed.

End LayoutFacts.

(** * Further properties of the program node and of the parser *)

Module FragmentFacts.

Import Unparse Parser Inputs Fragment ParserFacts ProgramFacts.
Import RenderingFacts LayoutFacts.

Local Open Scope nat_scope.
Local Open Scope list_scope.

Local Abbreviation length := List.length.

(** ** The program node *)

Lemma last_is_some {A : Type} (l : list (option A)) (x : option A) (b : A) :
  last (x :: l) None = Some b -> forall d, last (x :: l) d = Some b.
Proof. intros H d. now rewrite (last_default x l d None). Qed.

(** X8. [ProgramNode]'s constructor dereferences a null pointer exactly
    when the list is not empty and its first or its last element is
    null; otherwise it keeps the list as it is, null elements in the
    middle included. *)
Theorem program_constructor_faults_on_null_ends
    (globals : list (option DeclNode)) :
  (ProgramNode_ctor globals = inl NullDereference <->
   globals <> [] /\
   (hd_error globals = Some None \/ last globals None = None)) /\
  (forall prog, ProgramNode_ctor globals = inr prog ->
                myGlobals prog = globals).
Proof.
  split.
  - unfold ProgramNode_ctor. destruct globals as [|front tl].
    + split; [discriminate|]. intros [H _]. now destruct H.
    + destruct front as [f|].
      * destruct (last (Some f :: tl) (Some f)) as [b|] eqn:E.
        -- split; [discriminate|]. intros [_ [H|H]]; [discriminate|].
           rewrite (last_default _ _ (Some f) None) in E.
           rewrite E in H. discriminate.
        -- split; [|reflexivity]. intros _. split; [discriminate|].
           right. now rewrite (last_default _ _ None (Some f)).
      * split; [|reflexivity]. intros _. split; [discriminate|]. now left.
  - intros prog H. now apply ProgramNode_ctor_inr in H.
Qed.

Lemma ProgramNode_ctor_ends (globals : list (option DeclNode)) f b :
  hd_error globals = Some (Some f) -> last globals None = Some b ->
  ProgramNode_ctor globals =
    inr (mkProgramNode (Position_merge (DeclNode_pos f) (DeclNode_pos b))
           globals).
Proof.
  intros Hh Hl. unfold ProgramNode_ctor.
  destruct globals as [|front tl]; [discriminate|].
  injection Hh as ->. now rewrite (last_is_some tl (Some f) b Hl).
Qed.

Lemma unparse_globals_all (decls : list DeclNode) (indent : Z) :
  unparse_globals (map Some decls) indent =
    Some (String.concat "" (map (fun d => DeclNode_unparse d indent) decls)).
Proof.
  induction decls as [|d decls IH]; [reflexivity|].
  cbn [map unparse_globals]. rewrite IH. now rewrite concat_empty_cons.
Qed.

Lemma unparse_globals_null (l : list (option DeclNode)) (indent : Z) :
  unparse_globals l indent = None <-> In None l.
Proof.
  induction l as [|[d|] l IH]; cbn [unparse_globals In].
  - split; [discriminate | contradiction].
  - destruct (unparse_globals l indent).
    + split; [discriminate|]. intros [H|H]; [discriminate|].
      now apply IH in H.
    + split; [|reflexivity]. intros _. right. now apply IH.
  - split; [|reflexivity]. intros _. now left.
Qed.

(** X9. [ProgramNode::unparse] dereferences a null pointer exactly when
    the list of globals holds a null element; on a list without one it
    writes the renderings of the declarations, in list order, each at the
    given indentation. *)
Theorem program_rendering (indent : Z) :
  (forall p, ProgramNode_unparse p indent = None <-> In None (myGlobals p)) /\
  (forall pos decls,
     ProgramNode_unparse (mkProgramNode pos (map Some decls)) indent =
       Some (String.concat ""
               (map (fun d => DeclNode_unparse d indent) decls))).
Proof.
  split.
  - intros p. apply unparse_globals_null.
  - intros pos decls. apply unparse_globals_all.
Qed.

Lemma program_constructor_faults_on_null_ends_witness :
  ProgramNode_ctor [None; Some Layout.x_is_int] = inl NullDereference.
Proof.
  apply (proj1 (program_constructor_faults_on_null_ends
                  [None; Some Layout.x_is_int])).
  split; [discriminate | left; reflexivity].
Defined.

Lemma program_rendering_witness :
  ProgramNode_unparse
    (mkProgramNode (at_cols 1 3)
       [Some Layout.x_is_int; None; Some Layout.x_is_int]) 0 = None.
Proof.
  apply (proj1 (program_rendering 0)). right. left. reflexivity.
Defined.

(** ** What the actions build *)

(** Break a successful run into the runs of its parts, keeping the
    translations. *)
Ltac invert_value :=
  repeat match goal with
  | H : bind peek _ _ = Ok _ _ |- _ => rewrite peek_eq in H
  | H : bind _ _ _ = Ok _ _ |- _ =>
      apply bind_Ok in H; destruct H as (? & ? & ? & H)
  | H : ret _ _ = Ok _ _ |- _ => apply ret_Ok in H; destruct H as [? ?]
  | H : syntax_error _ = Ok _ _ |- _ => discriminate H
  | H : (if ?c then _ else _) _ = Ok _ _ |- _ => destruct c eqn:?
  end.

Lemma yy_primType_value toks t rest :
  yy_primType toks = Ok (Some t) rest ->
  exists p, (toks = INT p :: rest /\ t = IntTypeNode p) \/
            (toks = BOOL p :: rest /\ t = BoolTypeNode p).
Proof.
  unfold yy_primType. destruct toks as [|tok toks']; [discriminate|].
  destruct tok; cbn [kind]; try discriminate;
    intros H; injection H as <- <-; eexists; cbn [Token_pos]; eauto.
Qed.

Lemma yy_datatype_value toks t rest :
  yy_datatype toks = Ok (Some t) rest ->
  exists p, (toks = INT p :: rest /\ t = IntTypeNode p) \/
            (toks = BOOL p :: rest /\ t = BoolTypeNode p).
Proof.
  unfold yy_datatype. intros H. invert_value; try discriminate.
  now apply yy_primType_value.
Qed.

Lemma yy_type_value toks t rest :
  yy_type toks = Ok (Some t) rest ->
  exists p, (toks = INT p :: rest /\ t = IntTypeNode p) \/
            (toks = BOOL p :: rest /\ t = BoolTypeNode p).
Proof.
  unfold yy_type. intros H. invert_value; try discriminate.
  now apply yy_datatype_value.
Qed.

(** X10. Only a lone [INT] or [BOOL] token gives a type a node: every
    other type the grammar accepts ([void], a class name, and anything
    under [immutable] or [ref]) has a null translation. *)
Theorem type_node_only_for_int_and_bool toks t rest :
  yy_type toks = Ok (Some t) rest ->
  exists p, (toks = INT p :: rest /\ t = IntTypeNode p) \/
            (toks = BOOL p :: rest /\ t = BoolTypeNode p).
Proof. apply yy_type_value. Qed.

Lemma type_node_only_for_int_and_bool_witness :
  exists p, ([INT (at_cols 4 7); SEMICOL (at_cols 7 8)] =
               INT p :: [SEMICOL (at_cols 7 8)] /\
             IntTypeNode (at_cols 4 7) = IntTypeNode p) \/
            ([INT (at_cols 4 7); SEMICOL (at_cols 7 8)] =
               BOOL p :: [SEMICOL (at_cols 7 8)] /\
             IntTypeNode (at_cols 4 7) = BoolTypeNode p).
Proof.
  exact (type_node_only_for_int_and_bool
           [INT (at_cols 4 7); SEMICOL (at_cols 7 8)]
           (IntTypeNode (at_cols 4 7)) [SEMICOL (at_cols 7 8)] eq_refl).
Defined.

Lemma yy_name_value toks id rest :
  yy_name toks = Ok id rest ->
  exists t, toks = t :: rest /\ kind t = S_ID /\
            id = mkIDNode (Token_pos t) (Token_value t).
Proof.
  unfold yy_name. intros H. invert_value.
  match goal with
  | H : expect _ _ = Ok _ _ |- _ => apply expect_Ok in H; destruct H as [-> ?]
  end.
  subst. eauto.
Qed.

Lemma yy_varDecl_rest_value id colon toks v rest :
  yy_varDecl_rest id colon toks = Ok (Some v) rest ->
  built_by_grammar (VarDecl v) /\ myID v = id.
Proof.
  unfold yy_varDecl_rest. intros H. invert_value; try discriminate.
  match goal with
  | H : lift _ _ = Ok _ _ |- _ => unfold lift in H
  end.
  match goal with
  | H : yy_type _ = Ok ?ty _ |- _ =>
      destruct ty as [t|]; [apply yy_type_value in H|]
  end; cbn [VarDeclNode_ctor] in *; [|discriminate].
  match goal with
  | H : Ok _ _ = Ok _ _ |- _ => injection H as <- _
  end.
  match goal with
  | H : Some _ = Some _ |- _ => injection H as <-
  end.
  cbn. repeat split.
  match goal with
  | H : exists _, _ |- _ => destruct H as (p & [[_ ->]|[_ ->]]); eauto
  end.
Qed.

Lemma yy_decl_value toks d rest :
  yy_decl toks = Ok (Some d) rest -> built_by_grammar d.
Proof.
  unfold yy_decl. intros H. invert_value; try discriminate.
  match goal with
  | H : yy_varDecl_rest _ _ _ = Ok ?v _ |- _ =>
      destruct v as [v|]; [apply yy_varDecl_rest_value in H|]
  end; cbn [option_map] in *; [|discriminate].
  match goal with
  | H : Some _ = Some _ |- _ => injection H as <-
  end.
  tauto.
Qed.

Lemma yy_globals_built (fuel : nat) : forall acc toks globals rest,
  (forall d, In (Some d) acc -> built_by_grammar d) ->
  yy_globals fuel acc toks = Ok globals rest ->
  forall d, In (Some d) globals -> built_by_grammar d.
Proof.
  induction fuel as [|fuel IH]; intros acc toks globals rest Hacc H;
    [discriminate|].
  cbn [yy_globals] in H. rewrite peek_eq in H.
  destruct (is_kind S_ID (option_map kind (hd_error toks))).
  - apply bind_Ok in H. destruct H as (d & mid & Hd & H).
    refine (IH _ _ _ _ _ H).
    intros d' Hin. apply in_app_or in Hin. destruct Hin as [Hin|[Hin|[]]].
    + now apply Hacc.
    + subst d. now apply yy_decl_value in Hd.
  - apply ret_Ok in H. destruct H as [<- <-]. exact Hacc.
Qed.

Lemma parse_success_globals msg toks root0 prog :
  parse msg toks root0 = mkRun (Returned 0) (Some prog) "" "" ->
  exists globals rest,
    yy_globals (S (length toks)) [] toks = Ok globals rest /\
    ProgramNode_ctor globals = inr prog.
Proof.
  unfold parse, yy_program.
  destruct (bind _ _ toks) as [p [|t rest]| | |] eqn:E; try discriminate.
  intros H. injection H as ->.
  apply bind_Ok in E. destruct E as (globals & mid & Hg & E).
  exists globals, mid. split; [exact Hg|]. unfold lift in E.
  destruct (ProgramNode_ctor globals); [discriminate|].
  now injection E as ->.
Qed.

(** X11. Whatever the input, every declaration node in a root that
    [parse] delivers is a variable declaration of type [int] or [bool]
    without initializer, positioned from the start of its name; functions,
    classes, initialized variables and variables of other types leave a
    null element instead. *)
Theorem delivered_nodes_are_plain_variables msg toks root0 prog d :
  parse msg toks root0 = mkRun (Returned 0) (Some prog) "" "" ->
  In (Some d) (myGlobals prog) -> built_by_grammar d.
Proof.
  intros H Hin. apply parse_success_globals in H.
  destruct H as (globals & rest & Hg & Hc).
  apply ProgramNode_ctor_inr in Hc. destruct Hc as (Hm & _).
  rewrite Hm in Hin.
  refine (yy_globals_built _ _ _ _ _ _ Hg d Hin). intros ? [].
Qed.

Lemma delivered_nodes_are_plain_variables_witness :
  built_by_grammar (decl_node decl_x).
Proof.
  apply (delivered_nodes_are_plain_variables some_message
           (program_tokens [decl_x; decl_y]) None
           (mkProgramNode (program_span [decl_x; decl_y])
              (program_nodes [decl_x; decl_y]))
           (decl_node decl_x));
    [reflexivity | left; reflexivity].
Defined.

(** ** Programs of plain declarations *)

Lemma yy_decl_simple (d : SimpleDecl) (rest : list Token) :
  yy_decl (decl_tokens d ++ rest) = Ok (Some (decl_node d)) rest.
Proof. destruct d as [pn n pc [|] pt ps]; reflexivity. Qed.

Lemma program_tokens_length (ds : list SimpleDecl) :
  length (program_tokens ds) = 4 * length ds.
Proof.
  induction ds as [|d ds IH]; [reflexivity|].
  unfold program_tokens in *. cbn [flat_map]. rewrite length_app, IH.
  cbn [decl_tokens length]. lia.
Qed.

Lemma yy_globals_simple (ds : list SimpleDecl) : forall fuel acc rest,
  yy_globals (length ds + fuel) acc (program_tokens ds ++ rest) =
    yy_globals fuel (acc ++ program_nodes ds) rest.
Proof.
  induction ds as [|d ds IH]; intros fuel acc rest.
  - cbn. now rewrite app_nil_r.
  - change (program_tokens (d :: ds) ++ rest)
      with (decl_tokens d ++ (program_tokens ds ++ rest)) at 1.
    cbn [length Nat.add yy_globals]. rewrite peek_eq.
    cbn [decl_tokens app hd_error option_map kind is_kind].
    rewrite beq_refl. unfold bind at 1.
    change (ID (sd_name_pos d) (sd_name d) :: COLON (sd_colon_pos d)
              :: (if sd_bool d then BOOL (sd_type_pos d)
                  else INT (sd_type_pos d))
              :: SEMICOL (sd_semicol_pos d) :: program_tokens ds ++ rest)
      with (decl_tokens d ++ (program_tokens ds ++ rest)).
    rewrite yy_decl_simple, IH.
    cbn [program_nodes map]. now rewrite <- app_assoc.
Qed.

Lemma yy_globals_END fuel acc : yy_globals (S fuel) acc [] = Ok acc [].
Proof. reflexivity. Qed.

Lemma last_program_nodes (d : SimpleDecl) (ds : list SimpleDecl) :
  last (program_nodes (d :: ds)) None = Some (decl_node (last (d :: ds) d)).
Proof.
  revert d. induction ds as [|d' ds IH]; intros d; [reflexivity|].
  change (last (program_nodes (d :: d' :: ds)) None)
    with (last (program_nodes (d' :: ds)) None).
  rewrite IH.
  change (last (d :: d' :: ds) d) with (last (d' :: ds) d).
  now rewrite (last_default d' ds d d').
Qed.

Lemma ProgramNode_ctor_simple (ds : list SimpleDecl) :
  ProgramNode_ctor (program_nodes ds) =
    inr (mkProgramNode (program_span ds) (program_nodes ds)).
Proof.
  destruct ds as [|d ds]; [reflexivity|].
  apply ProgramNode_ctor_ends; [reflexivity|]. apply last_program_nodes.
Qed.

Lemma plain_program_nodes_root msg (ds : list SimpleDecl) root0 :
  root (parse msg (program_tokens ds) root0) =
    Some (mkProgramNode (program_span ds) (program_nodes ds)).
Proof.
  unfold parse, yy_program. unfold bind at 1.
  replace (S (length (program_tokens ds))) with (length ds + S (3 * length ds))
    by (rewrite program_tokens_length; lia).
  rewrite <- (app_nil_r (program_tokens ds)).
  rewrite yy_globals_simple, yy_globals_END. cbn [app].
  unfold lift. now rewrite ProgramNode_ctor_simple.
Qed.

(** X12. A program made of declarations [name : int ;] and
    [name : bool ;] parses with status 0; the root holds one variable
    declaration node per declaration, in source order, each with its name,
    its type and no initializer, and spans from the first declaration to
    the last. *)
Theorem plain_program_parses_in_order msg (ds : list SimpleDecl) root0 :
  parse msg (program_tokens ds) root0 =
    mkRun (Returned 0)
      (Some (mkProgramNode (program_span ds) (program_nodes ds))) "" "".
Proof.
  unfold parse, yy_program. unfold bind at 1.
  replace (S (length (program_tokens ds))) with (length ds + S (3 * length ds))
    by (rewrite program_tokens_length; lia).
  rewrite <- (app_nil_r (program_tokens ds)).
  rewrite yy_globals_simple, yy_globals_END. cbn [app].
  unfold lift. now rewrite ProgramNode_ctor_simple.
Qed.

Lemma decl_node_text (d : SimpleDecl) (indent : Z) :
  DeclNode_unparse (decl_node d) indent = (doIndent indent ++ decl_text d)%string.
Proof. destruct d as [pn n pc [|] pt ps]; reflexivity. Qed.

(** X13. Parsing such a program and unparsing the root writes, for each
    declaration in source order, the tabs of the indentation and the line
    [name: type;]. *)
Theorem plain_program_renders_line_by_line
    msg (ds : list SimpleDecl) root0 (indent : Z) :
  exists prog,
    root (parse msg (program_tokens ds) root0) = Some prog /\
    ProgramNode_unparse prog indent =
      Some (String.concat ""
              (map (fun d => (doIndent indent ++ decl_text d)%string) ds)).
Proof.
  rewrite plain_program_nodes_root.
  eexists. split; [reflexivity|].
  unfold ProgramNode_unparse, program_nodes. cbn [myGlobals].
  rewrite <- (map_map decl_node Some), unparse_globals_all, map_map.
  do 2 f_equal. apply map_ext. intros d. apply decl_node_text.
Qed.

(** ** Null declarations *)

Lemma yy_decl_head toks d rest :
  yy_decl toks = Ok d rest -> kind_of_head toks = Some S_ID.
Proof.
  unfold yy_decl. intros H.
  apply bind_Ok in H. destruct H as (id & mid & H & _).
  apply yy_name_value in H. destruct H as (t & -> & Hk & _).
  unfold kind_of_head. cbn. now rewrite Hk.
Qed.

Lemma yy_globals_step fuel acc toks d rest :
  yy_decl toks = Ok d rest ->
  yy_globals (S fuel) acc toks = yy_globals fuel (acc ++ [d]) rest.
Proof.
  intros Hd. cbn [yy_globals]. rewrite peek_eq.
  pose proof (yy_decl_head _ _ _ Hd) as Hk. unfold kind_of_head in Hk.
  rewrite Hk. cbn [is_kind]. rewrite beq_refl. unfold bind. now rewrite Hd.
Qed.

Lemma last_after {A : Type} (l : list A) (y : A) (l' : list A) (d : A) :
  last (l ++ y :: l') d = last (y :: l') d.
Proof.
  induction l as [|x l IH]; [reflexivity|].
  rewrite <- IH. cbn [app].
  destruct (l ++ y :: l') eqn:E; [|reflexivity].
  destruct l; discriminate E.
Qed.

(** X14. A declaration whose translation is null (a function, a class,
    an initialized variable) is accepted between plain declarations:
    [parse] returns 0 and sets a root that holds a null pointer in its
    place, which [ProgramNode::unparse] then dereferences at every
    indentation. *)
Theorem null_between_plain_declarations
    msg (ds1 : list SimpleDecl) (mid : list Token) (ds2 : list SimpleDecl)
    root0 :
  ds1 <> [] -> ds2 <> [] ->
  yy_decl (mid ++ program_tokens ds2) = Ok None (program_tokens ds2) ->
  exists prog,
    parse msg (program_tokens ds1 ++ mid ++ program_tokens ds2) root0 =
      mkRun (Returned 0) (Some prog) "" "" /\
    myGlobals prog = program_nodes ds1 ++ None :: program_nodes ds2 /\
    forall indent, ProgramNode_unparse prog indent = None.
Proof.
  intros H1 H2 Hmid.
  destruct ds1 as [|d1 ds1]; [contradiction|].
  destruct ds2 as [|d2 ds2]; [contradiction|].
  assert (ProgramNode_ctor
            (program_nodes (d1 :: ds1) ++ None :: program_nodes (d2 :: ds2)) =
          inr (mkProgramNode
                 (Position_merge (DeclNode_pos (decl_node d1))
                    (DeclNode_pos (decl_node (last (d2 :: ds2) d2))))
                 (program_nodes (d1 :: ds1)
                    ++ None :: program_nodes (d2 :: ds2)))) as Hc.
  { apply ProgramNode_ctor_ends; [reflexivity|].
    rewrite last_after.
    change (last (None :: program_nodes (d2 :: ds2)) None)
      with (last (program_nodes (d2 :: ds2)) None).
    apply last_program_nodes. }
  eexists. split; [|split].
  - unfold parse, yy_program. unfold bind at 1.
    pose proof (yy_decl_Ok _ _ _ Hmid) as Hlen.
    rewrite !length_app in *. rewrite !program_tokens_length in *.
    replace (S (4 * length (d1 :: ds1)
                + (length mid + 4 * length (d2 :: ds2))))
      with (length (d1 :: ds1)
            + S (length (d2 :: ds2)
                 + S (3 * length (d1 :: ds1) + length mid
                      + 3 * length ds2 + 2)))
      by (cbn [length]; lia).
    rewrite yy_globals_simple. cbn [app].
    rewrite (yy_globals_step _ _ _ _ _ Hmid).
    rewrite <- (app_nil_r (program_tokens (d2 :: ds2))).
    rewrite yy_globals_simple, yy_globals_END.
    rewrite <- app_assoc. cbn [app].
    unfold lift. rewrite Hc. reflexivity.
  - reflexivity.
  - intros indent. apply unparse_globals_null. cbn [myGlobals].
    apply in_or_app. right. now left.
Qed.

Lemma null_between_plain_declarations_witness :
  exists prog,
    parse some_message
      (program_tokens [decl_x] ++ fn_tokens ++ program_tokens [decl_y])
      None = mkRun (Returned 0) (Some prog) "" "" /\
    myGlobals prog = program_nodes [decl_x] ++ None :: program_nodes [decl_y] /\
    forall indent, ProgramNode_unparse prog indent = None.
Proof.
  apply (null_between_plain_declarations some_message [decl_x] fn_tokens
           [decl_y] None); [discriminate | discriminate | reflexivity].
Defined.

(** ** The assertion of the declaration constructor *)

Lemma yy_type_rejects t rest :
  kind t = S_CUSTOM \/ kind t = S_LPAREN ->
  yy_type (t :: rest) = SyntaxErr (t :: rest).
Proof.
  intros K.
  unfold yy_type, yy_datatype, yy_primType, bind, peek, ret.
  destruct K as [K|K];
    repeat (progress (cbn [hd_error option_map is_kind]; rewrite ?K;
                      cbv beta iota delta [symbol_kind_beq]));
    reflexivity.
Qed.

Lemma yy_decl_null_type px x pc tytoks ps rest :
  yy_type (tytoks ++ SEMICOL ps :: rest) = Ok None (SEMICOL ps :: rest) ->
  yy_decl (ID px x :: COLON pc :: tytoks ++ SEMICOL ps :: rest) =
    Crash AssertionFailure.
Proof.
  intros H. destruct tytoks as [|t tl]; [discriminate H|].
  cbn [app] in *. unfold yy_decl. unfold bind at 1.
  change (yy_name (ID px x :: COLON pc :: t :: tl ++ SEMICOL ps :: rest))
    with (Ok (mkIDNode px x) (COLON pc :: t :: tl ++ SEMICOL ps :: rest)).
  cbv iota beta. unfold bind at 1.
  change (expect S_COLON (COLON pc :: t :: tl ++ SEMICOL ps :: rest))
    with (Ok (COLON pc) (t :: tl ++ SEMICOL ps :: rest)).
  cbv iota beta. rewrite peek_eq. cbn [hd_error option_map is_kind].
  destruct (symbol_kind_beq S_CUSTOM (kind t)) eqn:E1.
  { apply internal_symbol_kind_dec_bl in E1.
    rewrite yy_type_rejects in H by (left; now symmetry). discriminate H. }
  destruct (symbol_kind_beq S_LPAREN (kind t)) eqn:E2.
  { apply internal_symbol_kind_dec_bl in E2.
    rewrite yy_type_rejects in H by (right; now symmetry). discriminate H. }
  unfold bind at 1. unfold yy_varDecl_rest. unfold bind at 1.
  rewrite H. reflexivity.
Qed.

(** X15. A variable declared at top level with a type whose translation
    is null ([void], a class name, or anything under [immutable] or
    [ref]) trips the assertion of the declaration constructor: the run
    stops there, whatever comes after the semicolon, and the root is left
    as it was. *)
Theorem null_type_trips_assertion msg px x pc tytoks ps rest root0 :
  yy_type (tytoks ++ SEMICOL ps :: rest) = Ok None (SEMICOL ps :: rest) ->
  parse msg (ID px x :: COLON pc :: tytoks ++ SEMICOL ps :: rest) root0 =
    mkRun (Died AssertionFailure) root0 "" "".
Proof.
  intros H. unfold parse, yy_program. unfold bind at 1.
  cbn [yy_globals]. rewrite peek_eq. cbn [hd_error option_map kind is_kind].
  rewrite beq_refl. unfold bind at 1. now rewrite yy_decl_null_type.
Qed.

Lemma null_type_trips_assertion_witness :
  parse some_message (v_void ++ decl_tokens decl_y) None =
    mkRun (Died AssertionFailure) None "" "".
Proof.
  apply (null_type_trips_assertion some_message (at_cols 1 2) "v"%string
           (at_cols 3 4) [VOID (at_cols 5 9)] (at_cols 9 10)
           (decl_tokens decl_y) None).
  reflexivity.
Defined.

(** ** Blocks *)

Lemma yy_stmtList_stops (fuel : nat) : forall toks v rest,
  yy_stmtList fuel toks = Ok v rest -> kind_of_head rest = Some S_RCURLY.
Proof.
  induction fuel as [|fuel IH]; intros toks v rest H; [discriminate|].
  cbn [yy_stmtList] in H. rewrite peek_eq in H.
  destruct (option_map kind (hd_error toks)) as [k|] eqn:E; [destruct k|];
    invert_value; try discriminate;
    try (eapply IH; eassumption).
  subst. exact E.
Qed.

Lemma yy_stmtList_closing fuel toks v rest :
  yy_stmtList fuel toks = Ok v rest ->
  exists t rest', rest = t :: rest' /\ kind t = S_RCURLY /\ In t toks.
Proof.
  intros H. pose proof (yy_stmtList_stops _ _ _ _ H) as Hk.
  pose proof (reads_front_stmtList fuel toks) as Hr. rewrite H in Hr.
  destruct Hr as [read ->].
  destruct rest as [|t rest']; [discriminate Hk|].
  injection Hk as Hk. exists t, rest'. repeat split; [exact Hk|].
  apply in_or_app. right. now left.
Qed.

Lemma unclosed_stmtList toks :
  never_closed toks ->
  (exists rest, parse_stmtList toks = SyntaxErr rest) \/
  (exists f, parse_stmtList toks = Crash f).
Proof.
  intros Hn. destruct (parse_stmtList toks) as [v rest|rest|f|] eqn:E.
  - apply yy_stmtList_closing in E. destruct E as (t & rest' & _ & Hk & Hin).
    now apply Hn in Hin.
  - left. now exists rest.
  - right. now exists f.
  - now apply parse_stmtList_fuel in E.
Qed.

Lemma yy_globals_decl_stops fuel acc toks :
  kind_of_head toks = Some S_ID ->
  (forall rest, yy_decl toks = SyntaxErr rest ->
                yy_globals (S fuel) acc toks = SyntaxErr rest) /\
  (forall f, yy_decl toks = Crash f ->
             yy_globals (S fuel) acc toks = Crash f).
Proof.
  intros Hk. unfold kind_of_head in Hk.
  split; intros x Hd; cbn [yy_globals]; rewrite peek_eq, Hk;
    cbn [is_kind]; rewrite beq_refl; unfold bind; now rewrite Hd.
Qed.

Lemma yy_decl_fn_open pf f p1 p2 p3 p4 p5 p6 body :
  yy_decl (fn_open pf f p1 p2 p3 p4 p5 p6 ++ body) =
    (parse_stmtList ;;; expect S_RCURLY ;;; ret None) body.
Proof.
  cbv -[parse_stmtList].
  destruct (parse_stmtList body) as [r rest| | |]; [|reflexivity..].
  destruct rest as [|t rest]; [reflexivity|].
  destruct t; reflexivity.
Qed.

Lemma yy_stmtList_returns (ps : list (Position * Position)) :
  forall fuel p rest,
    length ps < fuel ->
    yy_stmtList fuel (return_tokens ps ++ RCURLY p :: rest) =
      Ok tt (RCURLY p :: rest).
Proof.
  induction ps as [|[a b] ps IH]; intros fuel p rest Hf;
    (destruct fuel as [|fuel]; [simpl in Hf; lia|]).
  - reflexivity.
  - change (return_tokens ((a, b) :: ps) ++ RCURLY p :: rest)
      with (RETURN a :: SEMICOL b
              :: (return_tokens ps ++ RCURLY p :: rest)).
    cbn [yy_stmtList]. rewrite peek_eq. cbn [hd_error option_map kind].
    unfold bind at 1.
    change (yy_stmt (RETURN a :: SEMICOL b
                       :: (return_tokens ps ++ RCURLY p :: rest)))
      with (Ok tt (SEMICOL b :: (return_tokens ps ++ RCURLY p :: rest))).
    cbv beta iota. unfold bind at 1.
    change (expect S_SEMICOL
              (SEMICOL b :: (return_tokens ps ++ RCURLY p :: rest)))
      with (Ok (SEMICOL b) (return_tokens ps ++ RCURLY p :: rest)).
    cbv beta iota. apply IH. simpl in Hf. lia.
Qed.

Lemma parse_stmtList_returns ps p rest :
  parse_stmtList (return_tokens ps ++ RCURLY p :: rest) =
    Ok tt (RCURLY p :: rest).
Proof.
  unfold parse_stmtList. apply yy_stmtList_returns.
  rewrite length_app. cbn [length]. unfold return_tokens.
  induction ps as [|q ps IH]; cbn [flat_map length app] in *; lia.
Qed.

(** X20. A block is closed by a closing brace of the input and by
    nothing else.  A statement list that succeeds stops in front of an
    [RCURLY] token that the input holds; on tokens without [RCURLY] it
    never succeeds, but ends in a syntax error or in a fault of an
    action; and after any run of statements [return;] it does stop at
    the [RCURLY] that follows.  So a function [f : () -> void {] whose
    body holds no [RCURLY] makes [parse] return 1 or stop at a fault,
    with the root left as it was in either case, while the same opening
    followed by statements [return;] and [RCURLY] is a complete
    declaration. *)
Theorem block_ends_only_at_closing_brace :
  (forall fuel toks v rest,
     yy_stmtList fuel toks = Ok v rest ->
     exists t rest', rest = t :: rest' /\ kind t = S_RCURLY /\ In t toks) /\
  (forall toks,
     never_closed toks ->
     (exists rest, parse_stmtList toks = SyntaxErr rest) \/
     (exists f, parse_stmtList toks = Crash f)) /\
  (forall ps p rest,
     parse_stmtList (return_tokens ps ++ RCURLY p :: rest) =
       Ok tt (RCURLY p :: rest)) /\
  (forall msg pf f p1 p2 p3 p4 p5 p6 body root0,
     never_closed body ->
     (exists read la,
        parse msg (fn_open pf f p1 p2 p3 p4 p5 p6 ++ body) root0 =
          mkRun (Returned 1) root0 (msg read la ++ nl)%string
            ("syntax error" ++ nl)%string) \/
     (exists flt,
        parse msg (fn_open pf f p1 p2 p3 p4 p5 p6 ++ body) root0 =
          mkRun (Died flt) root0 "" "")) /\
  (forall pf f p1 p2 p3 p4 p5 p6 ps p rest,
     yy_decl (fn_open pf f p1 p2 p3 p4 p5 p6
                ++ return_tokens ps ++ RCURLY p :: rest) =
       Ok None rest).
Proof.
  split; [exact yy_stmtList_closing|]. split; [exact unclosed_stmtList|].
  split; [exact parse_stmtList_returns|]. split.
  - intros msg pf f p1 p2 p3 p4 p5 p6 body root0 Hn.
    destruct (yy_globals_decl_stops
                (length (fn_open pf f p1 p2 p3 p4 p5 p6 ++ body)) []
                (fn_open pf f p1 p2 p3 p4 p5 p6 ++ body) eq_refl)
      as [Hs Hc].
    unfold parse, yy_program, bind.
    destruct (unclosed_stmtList body Hn) as [[rest E]|[flt E]].
    + left. rewrite (Hs rest).
      * now eexists _, _.
      * rewrite yy_decl_fn_open. unfold bind. now rewrite E.
    + right. exists flt. rewrite (Hc flt); [reflexivity|].
      rewrite yy_decl_fn_open. unfold bind. now rewrite E.
  - intros. rewrite yy_decl_fn_open. unfold bind at 1.
    now rewrite parse_stmtList_returns.
Qed.

Lemma block_ends_only_at_closing_brace_witness :
  (exists rest,
     parse_stmtList [RETURN (at_cols 1 7); SEMICOL (at_cols 7 8)] =
       SyntaxErr rest) \/
  (exists f,
     parse_stmtList [RETURN (at_cols 1 7); SEMICOL (at_cols 7 8)] = Crash f).
Proof.
  apply (proj1 (proj2 block_ends_only_at_closing_brace)).
  intros t [<-|[<-|[]]]; discriminate.
Defined.

End FragmentFacts.

(** * When the root is assigned *)

Module RootFacts.

Import Parser Inputs Fragment ParserFacts ProgramFacts FragmentFacts.

Local Open Scope nat_scope.
Local Open Scope list_scope.

Local Abbreviation length := List.length.

Lemma yy_globals_stop fuel acc t rest :
  kind t <> S_ID -> yy_globals (S fuel) acc (t :: rest) = Ok acc (t :: rest).
Proof.
  intros Hk. cbn [yy_globals]. rewrite peek_eq.
  cbn [hd_error option_map is_kind].
  destruct (symbol_kind_beq S_ID (kind t)) eqn:E; [|reflexivity].
  apply internal_symbol_kind_dec_bl in E. now destruct Hk.
Qed.

(** The list of declarations ends at [END] or in front of a token that is
    not [ID]. *)
Lemma yy_globals_ends (fuel : nat) : forall acc toks globals rest,
  yy_globals fuel acc toks = Ok globals rest ->
  rest = [] \/ exists t rest', rest = t :: rest' /\ kind t <> S_ID.
Proof.
  induction fuel as [|fuel IH]; intros acc toks globals rest H;
    [discriminate|].
  cbn [yy_globals] in H. rewrite peek_eq in H.
  destruct (is_kind S_ID (option_map kind (hd_error toks))) eqn:E.
  - apply bind_Ok in H. destruct H as (d & mid & _ & H). now apply IH in H.
  - apply ret_Ok in H. destruct H as [_ <-].
    destruct toks as [|t toks']; [now left|]. right. exists t, toks'.
    split; [reflexivity|]. intros Hk. cbn [hd_error option_map is_kind] in E.
    rewrite Hk, beq_refl in E. discriminate E.
Qed.

Lemma read_consumed (toks read rest : list Token) :
  toks = read ++ rest -> consumed toks rest = read.
Proof. intros ->. apply consumed_app. Qed.

Lemma top_level_error msg ds t rest root0 :
  kind t <> S_ID ->
  parse msg (program_tokens ds ++ t :: rest) root0 =
    mkRun (Returned 1)
      (Some (mkProgramNode (program_span ds) (program_nodes ds)))
      (msg (program_tokens ds) (Some t) ++ nl)%string
      ("syntax error" ++ nl)%string.
Proof.
  intros Hk. unfold parse, yy_program, bind.
  replace (S (length (program_tokens ds ++ t :: rest)))
    with (length ds + S (3 * length ds + S (length rest)))
    by (rewrite length_app, program_tokens_length; cbn [length]; lia).
  rewrite yy_globals_simple, yy_globals_stop by exact Hk. cbn [app].
  unfold lift. rewrite ProgramNode_ctor_simple.
  unfold error. cbn [outcome root cout cerr hd_error].
  now rewrite consumed_app.
Qed.

Lemma error_inside_declaration msg ds read rest root0 :
  kind_of_head (read ++ rest) = Some S_ID ->
  yy_decl (read ++ rest) = SyntaxErr rest ->
  parse msg (program_tokens ds ++ read ++ rest) root0 =
    mkRun (Returned 1) root0
      (msg (program_tokens ds ++ read)%list (hd_error rest) ++ nl)%string
      ("syntax error" ++ nl)%string.
Proof.
  intros Hk Hd. unfold parse, yy_program, bind.
  replace (S (length (program_tokens ds ++ read ++ rest)))
    with (length ds + S (3 * length ds + length (read ++ rest)))
    by (rewrite !length_app, program_tokens_length; lia).
  rewrite yy_globals_simple.
  rewrite (proj1 (yy_globals_decl_stops _ _ _ Hk) rest Hd).
  unfold error. cbn [outcome root cout cerr].
  now rewrite app_assoc, consumed_app.
Qed.

(** A syntax error among the declarations lies inside one of them. *)
Lemma yy_globals_error (fuel : nat) : forall acc toks rest,
  yy_globals fuel acc toks = SyntaxErr rest ->
  exists before inside,
    toks = before ++ inside ++ rest /\
    kind_of_head (inside ++ rest) = Some S_ID /\
    yy_decl (inside ++ rest) = SyntaxErr rest.
Proof.
  induction fuel as [|fuel IH]; intros acc toks rest H; [discriminate|].
  cbn [yy_globals] in H. rewrite peek_eq in H.
  destruct (is_kind S_ID (option_map kind (hd_error toks))) eqn:E;
    [|discriminate H].
  unfold bind in H. pose proof (reads_front_decl toks) as Hr.
  destruct (yy_decl toks) as [d mid|r| |] eqn:Hd; try discriminate H.
  - destruct Hr as [read ->]. apply IH in H.
    destruct H as (before & inside & -> & Hk & Hi).
    exists (read ++ before), inside. rewrite <- app_assoc. now repeat split.
  - injection H as ->. destruct Hr as [read ->].
    exists [], read. repeat split; [|exact Hd].
    now apply is_kind_true in E.
Qed.

Lemma yy_program_error toks rest :
  yy_program toks = SyntaxErr rest ->
  yy_globals (S (length toks)) [] toks = SyntaxErr rest.
Proof.
  unfold yy_program, bind, lift.
  destruct (yy_globals (S (length toks)) [] toks) as [g mid|r| |];
    intros H; try discriminate H; [|now injection H as ->].
  destruct (ProgramNode_ctor g); discriminate H.
Qed.

Lemma parse_cases msg toks root0 :
  (forall f, outcome (parse msg toks root0) <> Died f) ->
  (exists globals prog,
     yy_globals (S (length toks)) [] toks = Ok globals [] /\
     ProgramNode_ctor globals = inr prog /\
     parse msg toks root0 = mkRun (Returned 0) (Some prog) "" "") \/
  (exists before inside rest,
     toks = before ++ inside ++ rest /\
     kind_of_head (inside ++ rest) = Some S_ID /\
     yy_decl (inside ++ rest) = SyntaxErr rest /\
     parse msg toks root0 =
       mkRun (Returned 1) root0
         (msg (before ++ inside)%list (hd_error rest) ++ nl)%string
         ("syntax error" ++ nl)%string) \/
  (exists read t rest globals prog,
     toks = read ++ t :: rest /\ kind t <> S_ID /\
     yy_globals (S (length toks)) [] toks = Ok globals (t :: rest) /\
     ProgramNode_ctor globals = inr prog /\
     parse msg toks root0 =
       mkRun (Returned 1) (Some prog) (msg read (Some t) ++ nl)%string
         ("syntax error" ++ nl)%string).
Proof.
  intros Hf. pose proof (reads_front_program toks) as Hr.
  unfold parse in *.
  destruct (yy_program toks) as [prog rest|rest|f|] eqn:E.
  - destruct Hr as [read Hr].
    unfold yy_program in E. apply bind_Ok in E.
    destruct E as (globals & mid & Hg & E). unfold lift in E.
    destruct (ProgramNode_ctor globals) as [|prog'] eqn:Hc; [discriminate|].
    injection E as -> ->.
    destruct (yy_globals_ends _ _ _ _ _ Hg) as [->|(t & rest' & -> & Hk)].
    + left. now exists globals, prog.
    + right. right. exists read, t, rest', globals, prog.
      repeat split; try assumption.
      unfold error. cbn [outcome root cout cerr hd_error].
      now rewrite (read_consumed _ _ _ Hr).
  - right. left. apply yy_program_error, yy_globals_error in E.
    destruct E as (before & inside & Ht & Hk & Hd).
    exists before, inside, rest. repeat split; try assumption.
    unfold error. cbn [outcome root cout cerr].
    rewrite app_assoc in Ht. now rewrite (read_consumed _ _ _ Ht).
  - now destruct (Hf f).
  - now apply yy_program_fuel in E.
Qed.

(** C7. The root is assigned by the action of [program : globals], and
    that production is reduced at the first token that cannot start a
    declaration, whether it is [END] or not.  So after any number of
    declarations [name : int ;] or [name : bool ;], a token other than
    [ID] makes [parse] report the syntax error and return 1 with the root
    already holding the node of those declarations; while a syntax error
    inside a declaration that follows them leaves the root as it was.
    In general, unless an action faults, [parse] ends in one of three
    ways.  It returns 0 with the root holding the node of all the
    declarations and nothing written.  Or it stops at a token inside a
    declaration, writes the message for the tokens before it and
    "syntax error", and returns 1 with the root as it was.  Or it stops
    at a token other than [ID] where a declaration could start, writes
    the same and returns 1, with the root holding the node of the
    declarations before that token. *)
Theorem root_assigned_when_program_is_reduced msg root0 :
  (forall ds t rest,
     kind t <> S_ID ->
     parse msg (program_tokens ds ++ t :: rest) root0 =
       mkRun (Returned 1)
         (Some (mkProgramNode (program_span ds) (program_nodes ds)))
         (msg (program_tokens ds) (Some t) ++ nl)%string
         ("syntax error" ++ nl)%string) /\
  (forall ds read rest,
     kind_of_head (read ++ rest) = Some S_ID ->
     yy_decl (read ++ rest) = SyntaxErr rest ->
     parse msg (program_tokens ds ++ read ++ rest) root0 =
       mkRun (Returned 1) root0
         (msg (program_tokens ds ++ read)%list (hd_error rest) ++ nl)%string
         ("syntax error" ++ nl)%string) /\
  (forall toks,
     (forall f, outcome (parse msg toks root0) <> Died f) ->
     (exists globals prog,
        yy_globals (S (length toks)) [] toks = Ok globals [] /\
        ProgramNode_ctor globals = inr prog /\
        parse msg toks root0 = mkRun (Returned 0) (Some prog) "" "") \/
     (exists before inside rest,
        toks = before ++ inside ++ rest /\
        kind_of_head (inside ++ rest) = Some S_ID /\
        yy_decl (inside ++ rest) = SyntaxErr rest /\
        parse msg toks root0 =
          mkRun (Returned 1) root0
            (msg (before ++ inside)%list (hd_error rest) ++ nl)%string
            ("syntax error" ++ nl)%string) \/
     (exists read t rest globals prog,
        toks = read ++ t :: rest /\ kind t <> S_ID /\
        yy_globals (S (length toks)) [] toks = Ok globals (t :: rest) /\
        ProgramNode_ctor globals = inr prog /\
        parse msg toks root0 =
          mkRun (Returned 1) (Some prog) (msg read (Some t) ++ nl)%string
            ("syntax error" ++ nl)%string)).
Proof.
  split; [intros; now apply top_level_error|].
  split; [intros; now apply error_inside_declaration|].
  intros toks. apply parse_cases.
Qed.

Lemma root_assigned_when_program_is_reduced_witness :
  parse some_message (program_tokens [decl_x] ++ [SEMICOL (at_cols 9 10)])
    None =
    mkRun (Returned 1)
      (Some (mkProgramNode (program_span [decl_x]) (program_nodes [decl_x])))
      ("syntax error, unexpected token" ++ nl)%string
      ("syntax error" ++ nl)%string /\
  parse some_message
    (program_tokens [decl_x]
       ++ [ID (at_cols 9 10) "y"; COLON (at_cols 10 11)]
       ++ [SEMICOL (at_cols 11 12)]) None =
    mkRun (Returned 1) None
      ("syntax error, unexpected token" ++ nl)%string
      ("syntax error" ++ nl)%string /\
  exists status,
    outcome (parse some_message [SEMICOL (at_cols 1 2)] None) =
      Returned status.
Proof.
  split; [|split].
  - apply (proj1 (root_assigned_when_program_is_reduced some_message None)
             [decl_x] (SEMICOL (at_cols 9 10)) []).
    discriminate.
  - apply (proj1 (proj2 (root_assigned_when_program_is_reduced
                           some_message None))
             [decl_x] [ID (at_cols 9 10) "y"; COLON (at_cols 10 11)]
             [SEMICOL (at_cols 11 12)]);
      reflexivity.
  - destruct (proj2 (proj2 (root_assigned_when_program_is_reduced
                              some_message None))
                [SEMICOL (at_cols 1 2)])
      as [(g & p & _ & _ & E)|[(b & i & r & _ & _ & _ & E)
                              |(rd & t & r & g & p & _ & _ & _ & _ & E)]].
    + intros f. vm_compute. discriminate.
    + exists 0%Z. now rewrite E.
    + exists 1%Z. now rewrite E.
    + exists 1%Z. now rewrite E.
Defined.

(** The sentence of the specification fails on the one-token input [;]:
    [parse] reports the error and returns 1, yet the root, null
    beforehand, holds the node of the empty program. *)
Lemma root_assigned_before_top_level_error :
  parse some_message [SEMICOL (at_cols 1 2)] None =
    mkRun (Returned 1) (Some (mkProgramNode (mkPosition 0 0 0 0) []))
      ("syntax error, unexpected token" ++ nl)%string
      ("syntax error" ++ nl)%string /\
  ~ root_assigned_only_on_success some_message [SEMICOL (at_cols 1 2)] None.
Proof.
  split; [reflexivity|].
  unfold root_assigned_only_on_success. intros H.
  assert (outcome (parse some_message [SEMICOL (at_cols 1 2)] None)
          <> Returned 0) as Hne by (vm_compute; discriminate).
  specialize (H Hne). vm_compute in H. discriminate H.
Qed.

End RootFacts.

(** * Further properties of the expression grammar *)

Module PrecedenceFacts.

Import Parser Inputs Fragment ParserFacts ProgramFacts.

Local Open Scope nat_scope.
Local Open Scope list_scope.

Local Abbreviation length := List.length.

Lemma yy_operator_stop fuel stack done t rest :
  binary_operator (kind t) = false ->
  yy_operator (S fuel) stack done (t :: rest) =
    Ok (done ++ map rule_of stack) (t :: rest).
Proof.
  intros H. cbn [yy_operator]. rewrite peek_eq. cbn [hd_error option_map].
  now rewrite H.
Qed.

Lemma yy_exp_DASH_atom fuel stack done p a rest :
  atom (kind a) = true -> ends_operand rest = true ->
  yy_exp (S (S fuel)) stack done (DASH p :: a :: rest) =
    yy_operator (S fuel) stack (done ++ [exp_DASH_term]) rest.
Proof.
  intros Ha He. cbn [yy_exp]. rewrite peek_eq.
  cbn [hd_error option_map kind is_kind].
  change (symbol_kind_beq S_NOT S_DASH) with false.
  change (symbol_kind_beq S_DASH S_DASH) with true.
  cbv iota. unfold bind at 1.
  change (expect S_DASH (DASH p :: a :: rest)) with (Ok (DASH p) (a :: rest)).
  cbv iota beta. unfold bind at 1. now rewrite yy_term_atom.
Qed.

Lemma binary_ends_operand t rest :
  binary_operator (kind t) = true -> ends_operand (t :: rest) = true.
Proof.
  intros H. cbn [ends_operand]. destruct (kind t); try discriminate H;
    reflexivity.
Qed.

Lemma rule_of_binary k : binary_operator k = true -> rule_of k = exp_binary k.
Proof. destruct k; try discriminate; reflexivity. Qed.

(** X16. Two binary operators between single-token operands: in
    [a op1 b op2 c] the parser reduces [b op2 c] first when [op2] is
    declared on a later precedence line than [op1], and [a op1 b] first
    when it is declared on an earlier line or on the same line; except
    that two operators of the non-associative line stop the parser at
    [op2]. *)
Theorem two_operators_group_by_precedence a op1 b op2 c :
  atom (kind a) = true -> atom (kind b) = true -> atom (kind c) = true ->
  binary_operator (kind op1) = true -> binary_operator (kind op2) = true ->
  parse_exp [a; op1; b; op2; c] =
    if level (kind op1) <? level (kind op2)
    then Ok (grouped_right (kind op1) (kind op2)) []
    else if relational (kind op1) && relational (kind op2)
         then SyntaxErr [op2; c]
         else Ok (grouped_left (kind op1) (kind op2)) [].
Proof.
  intros Ha Hb Hc H1 H2.
  unfold parse_exp, exp_fuel. cbn [List.length Nat.mul Nat.add].
  rewrite yy_exp_atom by (try apply binary_ends_operand; assumption).
  rewrite yy_operator_start by assumption.
  rewrite yy_exp_atom by (try apply binary_ends_operand; assumption).
  rewrite yy_operator_resolve by assumption.
  unfold grouped_left, grouped_right.
  destruct (kind op1) eqn:K1; try discriminate H1;
    destruct (kind op2) eqn:K2; try discriminate H2;
    cbn [resolve level precedence Nat.ltb Nat.leb relational andb app
         rule_of];
    first
      [ reflexivity
      | rewrite yy_exp_atom by (assumption || reflexivity); reflexivity
      | rewrite yy_operator_start by (rewrite K2; reflexivity);
        rewrite K2;
        rewrite yy_exp_atom by (assumption || reflexivity); reflexivity ].
Qed.

Lemma two_operators_group_by_precedence_witness :
  parse_exp
    [ID (at_cols 1 2) "a"; DASH (at_cols 3 4); ID (at_cols 5 6) "b";
     DASH (at_cols 7 8); ID (at_cols 9 10) "c"] =
    Ok (grouped_left S_DASH S_DASH) [].
Proof.
  exact (two_operators_group_by_precedence
           (ID (at_cols 1 2) "a") (DASH (at_cols 3 4)) (ID (at_cols 5 6) "b")
           (DASH (at_cols 7 8)) (ID (at_cols 9 10) "c")
           eq_refl eq_refl eq_refl eq_refl eq_refl).
Defined.

(** X17. Logical not binds tighter than every binary operator: in
    [!a op b] the negation of [a] is reduced before [op], for each of the
    twelve operators. *)
Theorem negation_reduced_before_any_operator p a op b :
  atom (kind a) = true -> atom (kind b) = true ->
  binary_operator (kind op) = true ->
  parse_exp [NOT p; a; op; b] =
    Ok [exp_term; exp_NOT; exp_term; exp_binary (kind op)] [].
Proof.
  intros Ha Hb Hop.
  unfold parse_exp, exp_fuel. cbn [List.length Nat.mul Nat.add].
  rewrite yy_exp_NOT by reflexivity.
  rewrite yy_exp_atom by (try apply binary_ends_operand; assumption).
  rewrite yy_operator_resolve by assumption.
  assert (resolve (level S_NOT) (kind op) = DoReduce) as ->
    by (destruct (kind op); try discriminate Hop; reflexivity).
  rewrite yy_operator_start by assumption.
  rewrite yy_exp_atom by (assumption || reflexivity).
  cbn [yy_operator peek bind hd_error option_map ret app map rule_of].
  now rewrite (rule_of_binary _ Hop).
Qed.

Lemma negation_reduced_before_any_operator_witness :
  parse_exp
    [NOT (at_cols 1 2); ID (at_cols 2 3) "a"; OR (at_cols 4 6);
     TRUE (at_cols 7 11)] =
    Ok [exp_term; exp_NOT; exp_term; exp_binary S_OR] [].
Proof.
  exact (negation_reduced_before_any_operator (at_cols 1 2)
           (ID (at_cols 2 3) "a") (OR (at_cols 4 6)) (TRUE (at_cols 7 11))
           eq_refl eq_refl eq_refl).
Defined.

(** X18. Unary minus takes a [term], not an [exp]: in [-a op b] the
    negation is reduced before any binary operator, and a minus directly
    followed by another minus or by a logical not is a syntax error at
    that second token. *)
Theorem unary_minus_takes_a_term :
  (forall p a op b,
     atom (kind a) = true -> atom (kind b) = true ->
     binary_operator (kind op) = true ->
     parse_exp [DASH p; a; op; b] =
       Ok [exp_DASH_term; exp_term; exp_binary (kind op)] []) /\
  (forall p t rest,
     kind t = S_DASH \/ kind t = S_NOT ->
     parse_exp (DASH p :: t :: rest) = SyntaxErr (t :: rest)).
Proof.
  split.
  - intros p a op b Ha Hb Hop.
    unfold parse_exp, exp_fuel. cbn [List.length Nat.mul Nat.add].
    rewrite yy_exp_DASH_atom by (try apply binary_ends_operand; assumption).
    rewrite yy_operator_start by assumption.
    rewrite yy_exp_atom by (assumption || reflexivity).
    cbn [yy_operator peek bind hd_error option_map ret app map rule_of].
    now rewrite (rule_of_binary _ Hop).
  - intros p t rest K. unfold parse_exp.
    replace (exp_fuel (DASH p :: t :: rest))
      with (S (S (2 * length rest + 5)))
      by (unfold exp_fuel; cbn [List.length]; lia).
    cbn [yy_exp]. rewrite peek_eq.
    cbn [hd_error option_map kind is_kind].
    change (symbol_kind_beq S_NOT S_DASH) with false.
    change (symbol_kind_beq S_DASH S_DASH) with true.
    cbv iota. unfold bind at 1.
    change (expect S_DASH (DASH p :: t :: rest)) with (Ok (DASH p) (t :: rest)).
    cbv iota beta. unfold bind at 1. cbn [yy_term]. rewrite peek_eq.
    cbn [hd_error option_map]. destruct K as [K|K]; rewrite K; reflexivity.
Qed.

Lemma unary_minus_takes_a_term_witness :
  parse_exp
    [DASH (at_cols 1 2); DASH (at_cols 2 3); ID (at_cols 3 4) "a"] =
    SyntaxErr [DASH (at_cols 2 3); ID (at_cols 3 4) "a"].
Proof.
  exact (proj2 unary_minus_takes_a_term (at_cols 1 2) (DASH (at_cols 2 3))
           [ID (at_cols 3 4) "a"] (or_introl eq_refl)).
Defined.

Lemma bind_eq {A B : Type} (m : M A) (k : A -> M B) toks a rest :
  m toks = Ok a rest -> bind m k toks = k a rest.
Proof. unfold bind. now intros ->. Qed.

Lemma yy_term_paren_Ok fuel done p rest done1 pr rest' :
  yy_exp fuel [] done rest = Ok done1 (RPAREN pr :: rest') ->
  yy_term (S fuel) done (LPAREN p :: rest) = Ok done1 rest'.
Proof.
  intros H.
  change (yy_term (S fuel) done (LPAREN p :: rest))
    with ((done1 <- yy_exp fuel [] done ;; expect S_RPAREN ;;; ret done1)
            rest).
  now rewrite (bind_eq _ _ _ _ _ H).
Qed.

Lemma yy_exp_paren_Ok fuel stack done p rest done1 rest' :
  yy_term fuel done (LPAREN p :: rest) = Ok done1 rest' ->
  yy_exp (S fuel) stack done (LPAREN p :: rest) =
    yy_operator fuel stack (done1 ++ [exp_term]) rest'.
Proof.
  intros H.
  change (yy_exp (S fuel) stack done (LPAREN p :: rest))
    with ((done1 <- yy_term fuel done ;;
           yy_operator fuel stack (done1 ++ [exp_term])) (LPAREN p :: rest)).
  now rewrite (bind_eq _ _ _ _ _ H).
Qed.

Lemma comparison_up_to_RPAREN fuel done a op1 b pr rest :
  atom (kind a) = true -> atom (kind b) = true ->
  binary_operator (kind op1) = true ->
  yy_exp (S (S (S (S fuel)))) [] done (a :: op1 :: b :: RPAREN pr :: rest) =
    Ok (done ++ [exp_term; exp_term; exp_binary (kind op1)])
      (RPAREN pr :: rest).
Proof.
  intros Ha Hb H1.
  rewrite yy_exp_atom by (try apply binary_ends_operand; assumption).
  rewrite yy_operator_start by assumption.
  rewrite yy_exp_atom by (assumption || reflexivity).
  rewrite yy_operator_stop by reflexivity.
  cbn [map]. rewrite (rule_of_binary _ H1), <- !app_assoc. reflexivity.
Qed.

(** X19. Parentheses lift the ban on chaining: with the first comparison
    in parentheses, [(a op1 b) op2 c] parses for any two binary
    operators, the two of the non-associative line included, and the
    inner operator is reduced first. *)
Theorem parenthesised_operand_may_chain pl a op1 b pr op2 c :
  atom (kind a) = true -> atom (kind b) = true -> atom (kind c) = true ->
  binary_operator (kind op1) = true -> binary_operator (kind op2) = true ->
  parse_exp [LPAREN pl; a; op1; b; RPAREN pr; op2; c] =
    Ok [exp_term; exp_term; exp_binary (kind op1); exp_term; exp_term;
        exp_binary (kind op2)] [].
Proof.
  intros Ha Hb Hc H1 H2.
  unfold parse_exp, exp_fuel. cbn [List.length Nat.mul Nat.add].
  rewrite (yy_exp_paren_Ok _ _ _ _ _ _ _
             (yy_term_paren_Ok _ _ pl _ _ _ _
                (comparison_up_to_RPAREN _ [] a op1 b pr [op2; c] Ha Hb H1))).
  rewrite yy_operator_start by assumption.
  rewrite yy_exp_atom by (assumption || reflexivity).
  rewrite yy_operator_end. cbn [app map].
  now rewrite (rule_of_binary _ H2).
Qed.

Lemma parenthesised_operand_may_chain_witness :
  parse_exp
    [LPAREN (at_cols 1 2); ID (at_cols 2 3) "a"; LESS (at_cols 4 5);
     ID (at_cols 6 7) "b"; RPAREN (at_cols 7 8); LESS (at_cols 9 10);
     ID (at_cols 11 12) "c"] =
    Ok [exp_term; exp_term; exp_binary S_LESS; exp_term; exp_term;
        exp_binary S_LESS] [].
Proof.
  exact (parenthesised_operand_may_chain (at_cols 1 2) (ID (at_cols 2 3) "a")
           (LESS (at_cols 4 5)) (ID (at_cols 6 7) "b") (at_cols 7 8)
           (LESS (at_cols 9 10)) (ID (at_cols 11 12) "c")
           eq_refl eq_refl eq_refl eq_refl eq_refl).
Defined.

End PrecedenceFacts.
